(** * PointCloudExport: a shallow embedding of the point-cloud exporter

    The development follows [scripts/PointCloudExport.py]: the class
    [PointCloudExporter] with its methods [export], [findLineSegments],
    [findBoundingBox], [sampleSD], [calculateSD], [sdCapsule], [smin],
    [frange] and [write].

    Numbers.  Two readings are used.  In the main development Python
    floats are read as real numbers ([R]) and [+], [-], [*], [/],
    [math.ceil], [math.floor], [math.exp], [math.log], [math.copysign] and
    [MVector.length] are the exact operations; the exceptions that do not
    depend on rounding (a division by zero, [min] of an empty sequence, an
    index out of range) are kept.  The statements of this reading are those
    that rounding does not change: which exception is raised, equalities
    between two runs of the code, the traversal of the graph, the order of
    bounds got by monotone operations, implications from the sign of a
    returned value, and the structure of the loops, whose values are built
    by repeated addition ([iter_add]) as [value += _step] builds them.
    [Module Binary64] has the numeric methods over binary64 floats; it
    evaluates the code at given inputs, where rounding or the range of
    [math.exp] decides the outcome.

    Loops.  The two [while] loops ([frange], [findLineSegments]) take a fuel
    argument; [None] means that the fuel ran out. *)

From Stdlib Require Import Reals Lra Lia List ZArith String Bool Arith DecimalString.
From Stdlib Require Import Permutation.
From Stdlib Require Floats Uint63.
Import ListNotations.

Open Scope R_scope.

(** ** Exceptions *)

(** The exceptions the methods can raise.  [InvalidInput] is the error kind
    named by the specification; no statement of the source raises it. *)
Inductive pyerror : Type :=
| IndexError
| TypeError
| ZeroDivisionError
| ValueError
| OverflowError
| InvalidInput.

Inductive result (A : Type) : Type :=
| Ok (a : A)
| Raise (e : pyerror).

Arguments Ok {A} a.
Arguments Raise {A} e.

Definition bind {A B : Type} (m : result A) (f : A -> result B) : result B :=
  match m with
  | Ok a => f a
  | Raise e => Raise e
  end.

Notation "x <- m ;; k" := (bind m (fun x => k))
  (at level 61, m at next level, right associativity).

(** ** Numbers *)

Definition Vec3 : Type := (R * R * R)%type.
Definition BoundingBox : Type := (Vec3 * Vec3)%type.

(** [a / b] on floats raises when [b] is zero. *)
Definition py_div (a b : R) : result R :=
  if Req_dec_T b 0 then Raise ZeroDivisionError else Ok (a / b).

Definition py_ceil (x : R) : R := IZR (Zceil x).
Definition py_floor (x : R) : R := IZR (Zfloor x).

(** [min] and [max] of a sequence; both raise on an empty one. *)
Definition py_min (l : list R) : result R :=
  match l with
  | [] => Raise ValueError
  | x :: xs => Ok (fold_left Rmin xs x)
  end.

Definition py_max (l : list R) : result R :=
  match l with
  | [] => Raise ValueError
  | x :: xs => Ok (fold_left Rmax xs x)
  end.

(** [math.copysign x y]: the magnitude of [x] with the sign of [y]. *)
Definition copysign (x y : R) : R :=
  if Rlt_dec y 0 then - Rabs x else Rabs x.

(** [l[i]] *)
Definition py_index (l : list R) (i : nat) : result R :=
  match nth_error l i with
  | Some x => Ok x
  | None => Raise IndexError
  end.

(** ** Segment data *)

(** One element of [zip( *[iter(l)] * 8)]: eight consecutive values
    [x, y, z, r, x, y, z, r] (parent, then child). *)
Record Seg8 : Type := mkSeg8 {
  d0 : R; d1 : R; d2 : R; d3 : R;
  d4 : R; d5 : R; d6 : R; d7 : R
}.

(** [zip( *[iter(l)] * 8)]: consecutive groups of eight; a shorter tail is
    dropped. *)
Fixpoint group8 (l : list R) : list Seg8 :=
  match l with
  | a :: b :: c :: d :: e :: f :: g :: h :: rest =>
      mkSeg8 a b c d e f g h :: group8 rest
  | _ => []
  end.

Definition flat8 (s : Seg8) : list R :=
  [d0 s; d1 s; d2 s; d3 s; d4 s; d5 s; d6 s; d7 s].

(** The flat list that holds the given segments. *)
Definition flatten (segs : list Seg8) : list R := flat_map flat8 segs.

(** ** findBoundingBox *)

(** A row [(x-r, x+r, y-r, y+r, z-r, z+r)]. *)
Record Row6 : Type := mkRow6 {
  xlo : R; xhi : R; ylo : R; yhi : R; zlo : R; zhi : R
}.

Definition row_of (x y z r : R) : Row6 :=
  mkRow6 (x - r) (x + r) (y - r) (y + r) (z - r) (z + r).

(** The rows of the child ends of every group of eight. *)
Definition child_rows (l : list R) : list Row6 :=
  map (fun d => row_of (d4 d) (d5 d) (d6 d) (d7 d)) (group8 l).

(** The row built from the first four values of the list. *)
Definition first_row (l : list R) : result Row6 :=
  x <- py_index l 0 ;;
  r <- py_index l 3 ;;
  y <- py_index l 1 ;;
  z <- py_index l 2 ;;
  Ok (row_of x y z r).

(** [xyzMin]: per column, [min] of the even columns and [max] of the odd
    ones.  [map(None, *xyz)] of a single row gives its six numbers, and
    [tuple] of a number raises. *)
Definition xyzMin (xyz : list Row6) : result Row6 :=
  match xyz with
  | [] => Raise TypeError
  | [_] => Raise TypeError
  | _ =>
      a <- py_min (map xlo xyz) ;;
      b <- py_max (map xhi xyz) ;;
      c <- py_min (map ylo xyz) ;;
      d <- py_max (map yhi xyz) ;;
      e <- py_min (map zlo xyz) ;;
      f <- py_max (map zhi xyz) ;;
      Ok (mkRow6 a b c d e f)
  end.

(** [math.ceil(v / s) * s if v > 0 else math.floor(v / s) * s] *)
Definition snap (v s : R) : result R :=
  if Rlt_dec 0 v
  then (q <- py_div v s ;; Ok (py_ceil q * s))
  else (q <- py_div v s ;; Ok (py_floor q * s)).

Definition findBoundingBox (_sdCapsuleData : list R) (_voxelSize : R)
  : result BoundingBox :=
  let xyz := child_rows _sdCapsuleData in
  r0 <- first_row _sdCapsuleData ;;
  let xyz := xyz ++ [r0] in
  m <- xyzMin xyz ;;
  x0 <- snap (xlo m) _voxelSize ;;
  x1 <- snap (xhi m) _voxelSize ;;
  y0 <- snap (ylo m) _voxelSize ;;
  y1 <- snap (yhi m) _voxelSize ;;
  z0 <- snap (zlo m) _voxelSize ;;
  z1 <- snap (zhi m) _voxelSize ;;
  Ok ((x0, y0, z0), (x1, y1, z1)).

(** ** sdCapsule, smin, calculateSD *)

Definition vsub (u v : Vec3) : Vec3 :=
  let '(ux, uy, uz) := u in
  let '(vx, vy, vz) := v in
  (ux - vx, uy - vy, uz - vz).

(** [MVector * MVector]: the dot product. *)
Definition dot (u v : Vec3) : R :=
  let '(ux, uy, uz) := u in
  let '(vx, vy, vz) := v in
  ux * vx + uy * vy + uz * vz.

(** [MVector * float] *)
Definition vscale (u : Vec3) (h : R) : Vec3 :=
  let '(ux, uy, uz) := u in (ux * h, uy * h, uz * h).

(** [MVector.length()] *)
Definition length3 (u : Vec3) : R := sqrt (dot u u).

(** Clamp to the range [0 <= h <= 1], as the two [if]s do. *)
Definition clamp01 (h : R) : R :=
  let h := if Rlt_dec 1 h then 1 else h in
  if Rlt_dec h 0 then 0 else h.

Definition sdCapsule (_pos _a : Vec3) (_r1 : R) (_b : Vec3) (_r2 : R)
  : result R :=
  let pa := vsub _pos _a in
  let ba := vsub _b _a in
  h <- py_div (dot pa ba) (dot ba ba) ;;
  let h := clamp01 h in
  let bah := vscale ba h in
  Ok (length3 (vsub pa bah) - _r1 - h * (_r2 - _r1)).

(** [math.log] raises outside its domain. *)
Definition py_log (x : R) : result R :=
  if Rlt_dec 0 x then Ok (ln x) else Raise ValueError.

(** The accumulation [res = 0; for value in _values: res += exp(-k*value)]. *)
Definition sum_exp (minusK : R) (values : list R) : R :=
  fold_left (fun res value => res + exp (minusK * value)) values 0.

Definition smin (_k : R) (_values : list R) : result R :=
  minV <- py_min _values ;;
  let minusK := - _k in
  let res := sum_exp minusK _values in
  lg <- py_log res ;;
  result <- py_div lg _k ;;
  Ok (copysign result minV).

(** A list comprehension whose body may raise. *)
Fixpoint mapM {A B : Type} (f : A -> result B) (l : list A) : result (list B) :=
  match l with
  | [] => Ok []
  | a :: l' => b <- f a ;; bs <- mapM f l' ;; Ok (b :: bs)
  end.

Definition calculateSD (_pos : Vec3) (_sdCapsuleData : list R) (_k : R)
  : result R :=
  let sdData := group8 _sdCapsuleData in
  sDistances <-
    mapM (fun s => sdCapsule _pos (d0 s, d1 s, d2 s) (d3 s)
                             (d4 s, d5 s, d6 s) (d7 s)) sdData ;;
  smin _k sDistances.

(** ** frange and sampleSD *)

(** [for value in frange(start, end_, step): s = body(value, s)].  The
    generator is consumed lazily: the body runs on a value before the next
    one is computed, and an exception in the body ends the loop. *)
Fixpoint for_frange {S : Type} (fuel : nat) (value end_ step : R)
    (body : R -> S -> option (result S)) (s : S) : option (result S) :=
  match fuel with
  | O => None
  | Datatypes.S fuel' =>
      if Rlt_dec value end_ then
        match body value s with
        | Some (Ok s') => for_frange fuel' (value + step) end_ step body s'
        | other => other
        end
      else Some (Ok s)
  end.

(** The values [frange] yields, collected. *)
Definition frange (fuel : nat) (_start _end _step : R) : option (result (list R)) :=
  for_frange fuel _start _end _step (fun v acc => Some (Ok (acc ++ [v]))) [].

Definition sampleSD (fuel : nat) (_sdCapsuleData : list R)
    (_voxelSize _smoothness : R) (_boundingBox : BoundingBox)
  : option (result (list Vec3)) :=
  let '((x0, y0, z0), (x1, y1, z1)) := _boundingBox in
  for_frange fuel x0 x1 _voxelSize (fun x points =>
    for_frange fuel y0 y1 _voxelSize (fun y points =>
      for_frange fuel z0 z1 _voxelSize (fun z points =>
        match calculateSD (x, y, z) _sdCapsuleData _smoothness with
        | Ok value =>
            Some (Ok (if Rlt_dec value 0 then points ++ [(x, y, z)] else points))
        | Raise e => Some (Raise e)
        end) points) points) [].

(** ** findLineSegments *)

Definition node : Type := nat.

(** What the traversal reads from the scene: the source of a node's
    [parentN] plug (if connected), the nodes of the destinations of its
    [childN] plug, and the [translate] and [scale] of its transform. *)
Record Scene : Type := mkScene {
  parentN : node -> option node;
  childN : node -> list node;
  translate : node -> Vec3;
  scale : node -> Vec3
}.

(** [list(pos)] followed by [max(scale)]. *)
Definition nodeData (sc : Scene) (n : node) : list R :=
  let '(x, y, z) := translate sc n in
  let '(sx, sy, sz) := scale sc n in
  [x; y; z; Rmax (Rmax sx sy) sz].

(** [n in checkedN] *)
Definition mem (n : node) (l : list node) : bool := existsb (Nat.eqb n) l.

(** The last element of an array and the array without it. *)
Definition pop_last {A : Type} (l : list A) : option (list A * A) :=
  match rev l with
  | [] => None
  | x :: r => Some (rev r, x)
  end.

(** The state of the [while] loop. *)
Record Walk : Type := mkWalk {
  uncheckedN : list node;
  checkedN : list node;
  lineSegments : list R
}.

(** One iteration of the loop body; [None] when [uncheckedN] is empty. *)
Definition walk_step (sc : Scene) (w : Walk) : option Walk :=
  match pop_last (uncheckedN w) with
  | None => None
  | Some (unchecked, n) =>
      let checked := checkedN w ++ [n] in
      let segs :=
        match parentN sc n with
        | Some p => lineSegments w ++ nodeData sc p ++ nodeData sc n
        | None => lineSegments w
        end in
      let unchecked :=
        unchecked ++ filter (fun c => negb (mem c checked)) (childN sc n) in
      Some (mkWalk unchecked checked segs)
  end.

Fixpoint walk (fuel : nat) (sc : Scene) (w : Walk) : option Walk :=
  match fuel with
  | O => None
  | Datatypes.S fuel' =>
      match walk_step sc w with
      | None => Some w
      | Some w' => walk fuel' sc w'
      end
  end.

Definition findLineSegments (fuel : nat) (sc : Scene) (_rootNode : node)
  : option (list R) :=
  option_map lineSegments (walk fuel sc (mkWalk [_rootNode] [] [])).

(** The nodes in the order the loop takes them from [uncheckedN]. *)
Definition popped (fuel : nat) (sc : Scene) (_rootNode : node)
  : option (list node) :=
  option_map checkedN (walk fuel sc (mkWalk [_rootNode] [] [])).

(** ** write and export *)

(** What the exporter can change: the files it writes and the lines it
    prints. *)
Record World : Type := mkWorld {
  files : list (string * list string);
  printed : list string
}.

Definition print (line : string) (w : World) : World :=
  mkWorld (files w) (printed w ++ [line]).

Definition str_nat (n : nat) : string :=
  DecimalString.NilEmpty.string_of_uint (Nat.to_uint n).

Section Writer.

(** [str] of a float. *)
Variable str_float : R -> string.

Definition point_line (p : Vec3) : string :=
  let '(x, y, z) := p in
  (str_float x ++ " " ++ str_float y ++ " " ++ str_float z)%string.

(** The lines [write] sends to [writeLine], in order. *)
Definition ply_lines (_points : list Vec3) : list string :=
  [ "ply"; "format ascii 1.0"; "comment point cloud data";
    ("element vertex " ++ str_nat (List.length _points))%string;
    "property float x"; "property float y"; "property float z";
    "element face 0"; "property list uchar int vertex_indices";
    "end_header" ]%string
  ++ map point_line _points.

(** Opening the file is taken to succeed. *)
Definition write (_filePath : string) (_points : list Vec3) (w : World)
  : World :=
  mkWorld (files w ++ [((_filePath ++ ".ply")%string, ply_lines _points)])
          (printed w).

Definition findFromSelection (selection : list node) (w : World)
  : option node * World :=
  match selection with
  | [] => (None, print "Error. Nothing selected." w)
  | n :: _ => (Some n, w)
  end.

(** [export] in a scene [sc] with the active selection [selection]: the
    outcome ([Ok tt] when the method returns, [Raise e] when it raises)
    and the world it leaves. *)
Definition export (fuel : nat) (sc : Scene) (selection : list node)
    (w : World) (_folderPath _fileName : string)
    (_voxelSize _smoothness : R) : option (result unit * World) :=
  let '(rootNode, w) := findFromSelection selection w in
  match rootNode with
  | None => Some (Ok tt, w)
  | Some rootNode =>
      match findLineSegments fuel sc rootNode with
      | None => None
      | Some lineSegments =>
          if (7 <? List.length lineSegments)%nat then
            match findBoundingBox lineSegments _voxelSize with
            | Raise e => Some (Raise e, w)
            | Ok bbox =>
                match sampleSD fuel lineSegments _voxelSize _smoothness bbox with
                | None => None
                | Some (Raise e) => Some (Raise e, w)
                | Some (Ok points) =>
                    let fileDir := (_folderPath ++ "/" ++ _fileName)%string in
                    let w := write fileDir points w in
                    Some (Ok tt, print "File written." w)
                end
            end
          else Some (Ok tt, w)
      end
  end.

End Writer.

(** ** Notions the statements use *)

(** Endpoints and radius of a segment. *)
Definition seg_a (s : Seg8) : Vec3 := (d0 s, d1 s, d2 s).
Definition seg_b (s : Seg8) : Vec3 := (d4 s, d5 s, d6 s).

(** The values [start, start + step, ...], [n] of them. *)
Definition axis (start step : R) (n : nat) : list R :=
  map (fun i => start + INR i * step) (seq 0 n).

(** The grid points from [lo], [nx] by [ny] by [nz] of them, x outermost and
    z innermost. *)
Definition grid (lo : Vec3) (step : R) (nx ny nz : nat) : list Vec3 :=
  let '(x0, y0, z0) := lo in
  flat_map (fun x =>
    flat_map (fun y =>
      map (fun z => (x, y, z)) (axis z0 step nz))
      (axis y0 step ny))
    (axis x0 step nx).

(** The field is defined and strictly negative at [p]. *)
Definition inside (segs : list R) (k : R) (p : Vec3) : bool :=
  match calculateSD p segs k with
  | Ok value => if Rlt_dec value 0 then true else false
  | Raise _ => false
  end.

(** The value [snap] returns when the division succeeds. *)
Definition snap_val (v s : R) : R :=
  if Rlt_dec 0 v then py_ceil (v / s) * s else py_floor (v / s) * s.

(** The box of the six snapped numbers. *)
Definition box_of (m : Row6) (s : R) : BoundingBox :=
  ((snap_val (xlo m) s, snap_val (ylo m) s, snap_val (zlo m) s),
   (snap_val (xhi m) s, snap_val (yhi m) s, snap_val (zhi m) s)).

(** The rows [findBoundingBox] reduces: the child end of every segment and
    the parent end of the first one. *)
Definition rows_of (segs : list Seg8) : list Row6 :=
  map (fun d => row_of (d4 d) (d5 d) (d6 d) (d7 d)) segs
  ++ match segs with
     | [] => []
     | s :: _ => [row_of (d0 s) (d1 s) (d2 s) (d3 s)]
     end.

(** The unrounded extrema of the rows, a default row at its head. *)
Definition extrema (r : Row6) (rs : list Row6) : Row6 :=
  mkRow6 (fold_left Rmin (map xlo rs) (xlo r))
         (fold_left Rmax (map xhi rs) (xhi r))
         (fold_left Rmin (map ylo rs) (ylo r))
         (fold_left Rmax (map yhi rs) (yhi r))
         (fold_left Rmin (map zlo rs) (zlo r))
         (fold_left Rmax (map zhi rs) (zhi r)).

(** The value [sdCapsule] returns when the division succeeds. *)
Definition capsule_dist (p a : Vec3) (r1 : R) (b : Vec3) (r2 : R) : R :=
  let pa := vsub p a in
  let ba := vsub b a in
  let h := clamp01 (dot pa ba / dot ba ba) in
  length3 (vsub pa (vscale ba h)) - r1 - h * (r2 - r1).

Definition seg_dist (p : Vec3) (s : Seg8) : R :=
  capsule_dist p (seg_a s) (d3 s) (seg_b s) (d7 s).

(** The endpoints of the segment are distinct. *)
Definition proper (s : Seg8) : Prop := seg_a s <> seg_b s.

(** How many values [frange] yields for a positive step. *)
Definition steps (start end_ step : R) : nat :=
  Z.to_nat (Zceil ((end_ - start) / step)).

(** ** Notions for the traversal *)

(** The largest number of [childN] destinations of a node of [V]. *)
Definition max_degree (sc : Scene) (V : list node) : nat :=
  list_max (map (fun n => List.length (childN sc n)) V).

(** The nodes of [V] the loop has not taken yet. *)
Definition unseen (V : list node) (w : Walk) : list node :=
  filter (fun n => negb (mem n (checkedN w))) V.

(** The quantity every iteration decreases. *)
Definition walk_measure (sc : Scene) (V : list node) (w : Walk) : nat :=
  List.length (unseen V w) * S (max_degree sc V) + List.length (uncheckedN w).

(** What every iteration keeps: the pending nodes are nodes of [V]; a
    pending node that was already taken has each of its children taken or
    pending after it; and the data is a whole number of groups of eight. *)
Definition walk_inv (sc : Scene) (V : list node) (w : Walk) : Prop :=
  (forall n, In n (uncheckedN w) -> In n V) /\
  (forall pre n post,
     uncheckedN w = pre ++ n :: post -> In n (checkedN w) ->
     forall c, In c (childN sc n) -> In c (checkedN w) \/ In c post) /\
  (exists segs, lineSegments w = flatten segs).

(** A scene where node 2 is a destination of the [childN] plug of both
    node 0 and node 1. *)
Definition shared_child_scene : Scene :=
  mkScene
    (fun n => match n with
              | 1%nat => Some 0%nat
              | 2%nat => Some 1%nat
              | _ => None
              end)
    (fun n => match n with
              | 0%nat => [2%nat; 1%nat]
              | 1%nat => [2%nat]
              | _ => []
              end)
    (fun n => (INR n, 0, 0))
    (fun _ => (1, 1, 1)).

(** A scene with a single sphere, and one with a parent at the origin and a
    child at x = 3, both of radius 1. *)
Definition single_scene : Scene :=
  mkScene (fun _ => None) (fun _ => []) (fun _ => (0, 0, 0)) (fun _ => (1, 1, 1)).

Definition pair_scene : Scene :=
  mkScene
    (fun n => match n with 1%nat => Some 0%nat | _ => None end)
    (fun n => match n with 0%nat => [1%nat] | _ => [] end)
    (fun n => match n with 1%nat => (3, 0, 0) | _ => (0, 0, 0) end)
    (fun _ => (1, 1, 1)).

Definition empty_world : World := mkWorld [] [].

(** What [zip( *[iter(l)] * 8)] leaves over: the last [len(l) % 8] values. *)
Fixpoint tail8 (l : list R) : list R :=
  match l with
  | _ :: _ :: _ :: _ :: _ :: _ :: _ :: _ :: rest => tail8 rest
  | _ => l
  end.

(** The nodes the traversal can come to from the root along [childN]. *)
Inductive reachable (sc : Scene) (root : node) : node -> Prop :=
| reach_root : reachable sc root root
| reach_child (n c : node) :
    reachable sc root n -> In c (childN sc n) -> reachable sc root c.

(** What one node adds to [lineSegments]: the data of its parent and its
    own, when its [parentN] plug has a source. *)
Definition segment_of (sc : Scene) (n : node) : list R :=
  match parentN sc n with
  | Some p => nodeData sc p ++ nodeData sc n
  | None => []
  end.

(** The child end of a segment: position and radius. *)
Definition child_end (s : Seg8) : R * R * R * R := (d4 s, d5 s, d6 s, d7 s).

(** The group of eight a node with parent [p] adds. *)
Definition seg8_of (sc : Scene) (p n : node) : Seg8 :=
  let '(px, py, pz) := translate sc p in
  let '(a, b, c) := scale sc p in
  let '(nx, ny, nz) := translate sc n in
  let '(d, e, f) := scale sc n in
  mkSeg8 px py pz (Rmax (Rmax a b) c) nx ny nz (Rmax (Rmax d e) f).

(** The groups of eight the nodes [ns] add, in order. *)
Definition segs_of (sc : Scene) (ns : list node) : list Seg8 :=
  flat_map (fun n => match parentN sc n with
                     | Some p => [seg8_of sc p n]
                     | None => []
                     end) ns.

(** ** Repeated addition *)

(** The value of [value] after [n] passes of [value += _step], starting
    from [start]: each step is added to the value before. *)
Fixpoint iter_add (start step : R) (n : nat) : R :=
  match n with
  | O => start
  | S n' => iter_add start step n' + step
  end.

(** The first [n] of these values, in order. *)
Definition ramp (start step : R) (n : nat) : list R :=
  map (iter_add start step) (seq 0 n).

(** The range ends after [n] values: the first [n] values lie strictly
    below the end, and the next one does not. *)
Definition range_count (start end_ step : R) (n : nat) : Prop :=
  (forall i, (i < n)%nat -> iter_add start step i < end_) /\
  ~ iter_add start step n < end_.

(** The points the three nested ranges visit, x outermost and z innermost. *)
Definition visited (lo : Vec3) (step : R) (nx ny nz : nat) : list Vec3 :=
  let '(x0, y0, z0) := lo in
  flat_map (fun x =>
    flat_map (fun y =>
      map (fun z => (x, y, z)) (ramp z0 step nz))
      (ramp y0 step ny))
    (ramp x0 step nx).

(** ** Binary64 evaluation

    The same methods over binary64 floats, with the operations of IEEE 754
    as Python has them.  [math.exp] and [math.log] are the platform's
    functions: their values are parameters, their exceptions are those of
    the [math] module.  These definitions serve to evaluate the code at
    given inputs. *)
Module Binary64.
Import Floats.
Local Open Scope float_scope.

Definition Vec3 : Type := (float * float * float)%type.

(** An integer of magnitude below 2^53 as a float. *)
Definition of_Z (z : Z) : float :=
  match z with
  | Z0 => 0
  | Zpos _ => of_uint63 (Uint63.of_Z z)
  | Zneg p => - of_uint63 (Uint63.of_Z (Zpos p))
  end.

(** [math.floor]: a float with a non-negative exponent is an integer
    already; otherwise the mantissa is divided by the power of two. *)
Definition math_floor (x : float) : float :=
  match Prim2SF x with
  | S754_finite s m e =>
      if (0 <=? e)%Z then x
      else
        let d := (2 ^ (- e))%Z in
        let q := (Zpos m / d)%Z in
        let whole := (Zpos m mod d =? 0)%Z in
        if s then of_Z (- (if whole then q else q + 1))
        else of_Z q
  | _ => x
  end.

(** [math.ceil] *)
Definition math_ceil (x : float) : float :=
  match Prim2SF x with
  | S754_finite s m e =>
      if (0 <=? e)%Z then x
      else
        let d := (2 ^ (- e))%Z in
        let q := (Zpos m / d)%Z in
        let whole := (Zpos m mod d =? 0)%Z in
        if s then (if (q =? 0)%Z then neg_zero else of_Z (- q))
        else of_Z (if whole then q else q + 1)
  | _ => x
  end.

Definition py_div (a b : float) : result float :=
  if b =? 0 then Raise ZeroDivisionError else Ok (a / b).

(** [min] and [max] keep the first of equal items. *)
Definition py_min (l : list float) : result float :=
  match l with
  | [] => Raise ValueError
  | x :: xs =>
      Ok (fold_left (fun best item => if item <? best then item else best) xs x)
  end.

Definition py_max (l : list float) : result float :=
  match l with
  | [] => Raise ValueError
  | x :: xs =>
      Ok (fold_left (fun best item => if best <? item then item else best) xs x)
  end.

Definition py_index (l : list float) (i : nat) : result float :=
  match nth_error l i with
  | Some x => Ok x
  | None => Raise IndexError
  end.

(** [math.copysign] *)
Definition copysign (x y : float) : float :=
  if get_sign y then - abs x else abs x.

Record Seg8 : Type := mkSeg8 {
  d0 : float; d1 : float; d2 : float; d3 : float;
  d4 : float; d5 : float; d6 : float; d7 : float
}.

Fixpoint group8 (l : list float) : list Seg8 :=
  match l with
  | a :: b :: c :: d :: e :: f :: g :: h :: rest =>
      mkSeg8 a b c d e f g h :: group8 rest
  | _ => []
  end.

Record Row6 : Type := mkRow6 {
  xlo : float; xhi : float; ylo : float; yhi : float; zlo : float; zhi : float
}.

Definition row_of (x y z r : float) : Row6 :=
  mkRow6 (x - r) (x + r) (y - r) (y + r) (z - r) (z + r).

Definition first_row (l : list float) : result Row6 :=
  x <- py_index l 0 ;;
  r <- py_index l 3 ;;
  y <- py_index l 1 ;;
  z <- py_index l 2 ;;
  Ok (row_of x y z r).

Definition xyzMin (xyz : list Row6) : result Row6 :=
  match xyz with
  | [] => Raise TypeError
  | [_] => Raise TypeError
  | _ =>
      a <- py_min (map xlo xyz) ;;
      b <- py_max (map xhi xyz) ;;
      c <- py_min (map ylo xyz) ;;
      d <- py_max (map yhi xyz) ;;
      e <- py_min (map zlo xyz) ;;
      f <- py_max (map zhi xyz) ;;
      Ok (mkRow6 a b c d e f)
  end.

(** [math.ceil(v / s) * s if v > 0 else math.floor(v / s) * s] *)
Definition snap (v s : float) : result float :=
  if 0 <? v
  then (q <- py_div v s ;; Ok (math_ceil q * s))
  else (q <- py_div v s ;; Ok (math_floor q * s)).

Definition findBoundingBox (_sdCapsuleData : list float) (_voxelSize : float)
  : result (Vec3 * Vec3) :=
  let xyz :=
    map (fun d => row_of (d4 d) (d5 d) (d6 d) (d7 d)) (group8 _sdCapsuleData) in
  r0 <- first_row _sdCapsuleData ;;
  let xyz := xyz ++ [r0] in
  m <- xyzMin xyz ;;
  x0 <- snap (xlo m) _voxelSize ;;
  x1 <- snap (xhi m) _voxelSize ;;
  y0 <- snap (ylo m) _voxelSize ;;
  y1 <- snap (yhi m) _voxelSize ;;
  z0 <- snap (zlo m) _voxelSize ;;
  z1 <- snap (zhi m) _voxelSize ;;
  Ok ((x0, y0, z0), (x1, y1, z1)).

(** The values [frange] yields. *)
Fixpoint frange (fuel : nat) (value end_ step : float) : option (list float) :=
  match fuel with
  | O => None
  | S fuel' =>
      if value <? end_
      then option_map (cons value) (frange fuel' (value + step) end_ step)
      else Some []
  end.


Definition vsub (u v : Vec3) : Vec3 :=
  let '(ux, uy, uz) := u in
  let '(vx, vy, vz) := v in
  (ux - vx, uy - vy, uz - vz).

Definition dot (u v : Vec3) : float :=
  let '(ux, uy, uz) := u in
  let '(vx, vy, vz) := v in
  ux * vx + uy * vy + uz * vz.

Definition vscale (u : Vec3) (h : float) : Vec3 :=
  let '(ux, uy, uz) := u in (ux * h, uy * h, uz * h).

Definition length3 (u : Vec3) : float := sqrt (dot u u).

Definition clamp01 (h : float) : float :=
  let h := if 1 <? h then 1 else h in
  if h <? 0 then 0 else h.

Definition sdCapsule (_pos _a : Vec3) (_r1 : float) (_b : Vec3) (_r2 : float)
  : result float :=
  let pa := vsub _pos _a in
  let ba := vsub _b _a in
  h <- py_div (dot pa ba) (dot ba ba) ;;
  let h := clamp01 h in
  let bah := vscale ba h in
  Ok (length3 (vsub pa bah) - _r1 - h * (_r2 - _r1)).

Section Libm.

(** The values of the platform's [exp] and [log]. *)
Variables libm_exp libm_log : float -> float.

(** [math.exp] raises when the result of a finite argument is not a finite
    float: above ln(DBL_MAX) = 709.782712893384. *)
Definition math_exp (x : float) : result float :=
  if (709.782712893384 <? x) && is_finite x
  then Raise OverflowError
  else Ok (libm_exp x).

(** [math.log] raises at zero and below. *)
Definition math_log (x : float) : result float :=
  if x <=? 0 then Raise ValueError else Ok (libm_log x).

(** [for value in _values: res += math.exp(minusK * value)] *)
Fixpoint sum_exp (minusK : float) (values : list float) (res : float)
  : result float :=
  match values with
  | [] => Ok res
  | value :: rest =>
      e <- math_exp (minusK * value) ;;
      sum_exp minusK rest (res + e)
  end.

Definition smin (_k : float) (_values : list float) : result float :=
  minV <- py_min _values ;;
  let minusK := - _k in
  res <- sum_exp minusK _values 0 ;;
  lg <- math_log res ;;
  result <- py_div lg _k ;;
  Ok (copysign result minV).

Definition calculateSD (_pos : Vec3) (_sdCapsuleData : list float)
    (_k : float) : result float :=
  let sdData := group8 _sdCapsuleData in
  sDistances <-
    mapM (fun s => sdCapsule _pos (d0 s, d1 s, d2 s) (d3 s)
                             (d4 s, d5 s, d6 s) (d7 s)) sdData ;;
  smin _k sDistances.

End Libm.

End Binary64.

(** * Properties *)

(** ** Grouping by eight *)

Lemma group8_flat8 (s : Seg8) (l : list R) :
  group8 (flat8 s ++ l) = s :: group8 l.
Proof. destruct s; reflexivity. Qed.

Lemma group8_flatten (segs : list Seg8) : group8 (flatten segs) = segs.
Proof.
  induction segs as [|s segs IH]; [reflexivity|].
  unfold flatten in *; cbn [flat_map].
  now rewrite group8_flat8, IH.
Qed.

Lemma length_flatten (segs : list Seg8) :
  List.length (flatten segs) = (8 * List.length segs)%nat.
Proof.
  induction segs as [|s segs IH]; [reflexivity|].
  unfold flatten in *; cbn [flat_map].
  rewrite length_app, IH; cbn [flat8 List.length]; lia.
Qed.

(** ** The bounding box *)



Lemma py_div_ok (a b : R) : b <> 0 -> py_div a b = Ok (a / b).
Proof. intro H; unfold py_div; now destruct (Req_dec_T b 0). Qed.

Lemma py_div_zero (a : R) : py_div a 0 = Raise ZeroDivisionError.
Proof. unfold py_div; destruct (Req_dec_T 0 0); [reflexivity|congruence]. Qed.

Lemma snap_ok (v s : R) : s <> 0 -> snap v s = Ok (snap_val v s).
Proof.
  intro H; unfold snap, snap_val.
  destruct (Rlt_dec 0 v); now rewrite py_div_ok.
Qed.

Lemma snap_zero (v : R) : snap v 0 = Raise ZeroDivisionError.
Proof. unfold snap; destruct (Rlt_dec 0 v); now rewrite py_div_zero. Qed.

Lemma first_row_flatten (s : Seg8) (segs : list Seg8) :
  first_row (flatten (s :: segs)) = Ok (row_of (d0 s) (d1 s) (d2 s) (d3 s)).
Proof. reflexivity. Qed.

Lemma xyzMin_two (r1 r2 : Row6) (rs : list Row6) :
  xyzMin (r1 :: r2 :: rs) = Ok (extrema r1 (r2 :: rs)).
Proof. reflexivity. Qed.

(** On a list that holds at least one segment, and with a non-zero voxel
    size, [findBoundingBox] returns the snapped extrema of the rows. *)
Lemma findBoundingBox_flatten (s : Seg8) (segs : list Seg8) (vs : R) :
  vs <> 0 ->
  exists r rs,
    rows_of (s :: segs) = r :: rs /\
    findBoundingBox (flatten (s :: segs)) vs = Ok (box_of (extrema r rs) vs).
Proof.
  intro Hvs.
  unfold findBoundingBox, child_rows.
  rewrite group8_flatten, first_row_flatten.
  cbn [bind map app].
  set (r := row_of (d4 s) (d5 s) (d6 s) (d7 s)).
  set (r0 := row_of (d0 s) (d1 s) (d2 s) (d3 s)).
  destruct (map (fun d => row_of (d4 d) (d5 d) (d6 d) (d7 d)) segs ++ [r0])
    as [|r2 rs] eqn:E.
  { now destruct (map _ segs). }
  exists r, (r2 :: rs). split.
  - unfold rows_of; cbn [map app]. fold r r0. now rewrite E.
  - rewrite xyzMin_two. cbn [bind].
    rewrite !snap_ok by assumption. reflexivity.
Qed.

Lemma div_le_div (u v s : R) : 0 < s -> u <= v -> u / s <= v / s.
Proof.
  intros Hs Huv. unfold Rdiv.
  apply Rmult_le_compat_r; [|assumption].
  left; now apply Rinv_0_lt_compat.
Qed.


Lemma div_nonpos (v s : R) : 0 < s -> v <= 0 -> v / s <= 0.
Proof.
  intros Hs Hv. replace 0 with (0 / s) by (unfold Rdiv; ring).
  now apply div_le_div.
Qed.


Lemma snap_val_ceil (v s : R) (n : Z) :
  0 < v -> IZR n - 1 < v / s <= IZR n -> snap_val v s = IZR n * s.
Proof.
  intros Hv Hn. unfold snap_val, py_ceil.
  destruct (Rlt_dec 0 v); [|lra]. now rewrite (Zceil_eq n).
Qed.

Lemma snap_val_floor (v s : R) (n : Z) :
  v <= 0 -> IZR n <= v / s < IZR n + 1 -> snap_val v s = IZR n * s.
Proof.
  intros Hv Hn. unfold snap_val, py_floor.
  destruct (Rlt_dec 0 v); [lra|]. now rewrite (Zfloor_eq n).
Qed.


(** C1: with the child end at x = 4 and the parent end at x = 2, both of
    radius 1, and a voxel size of 2, the unrounded lower x extremum is
    2 - 1 = 1, and [findBoundingBox] returns the min corner x = 2: the
    positive lower bound is taken up to the next multiple, and the box
    does not contain the extremum. *)
Theorem findBoundingBox_positive_lower_bound_shrinks :
  findBoundingBox [2; 0; 0; 1; 4; 0; 0; 1] 2
    = Ok ((2, -2, -2), (6, 2, 2)) /\
  2 - 1 < 2.
Proof.
  split; [|lra].
  destruct (findBoundingBox_flatten (mkSeg8 2 0 0 1 4 0 0 1) [] 2)
    as (r & rs & Hrows & Hbox); [lra|].
  cbn [flatten flat_map flat8 d0 d1 d2 d3 d4 d5 d6 d7 app] in Hbox.
  rewrite Hbox.
  unfold rows_of in Hrows; cbn in Hrows.
  injection Hrows as <- <-.
  unfold box_of, extrema, row_of; cbn.
  assert (E1 : Rmin (4 - 1) (2 - 1) = 1)
    by (unfold Rmin; destruct (Rle_dec _ _); lra).
  assert (E2 : Rmax (4 + 1) (2 + 1) = 5)
    by (unfold Rmax; destruct (Rle_dec _ _); lra).
  assert (E3 : Rmin (0 - 1) (0 - 1) = -1)
    by (unfold Rmin; destruct (Rle_dec _ _); lra).
  assert (E4 : Rmax (0 + 1) (0 + 1) = 1)
    by (unfold Rmax; destruct (Rle_dec _ _); lra).
  rewrite E1, E2, E3, E4.
  rewrite (snap_val_ceil 1 2 1) by lra.
  rewrite (snap_val_ceil 5 2 3) by lra.
  rewrite (snap_val_floor (-1) 2 (-1)) by lra.
  repeat f_equal; lra.
Qed.

(** ** The signed distance of one capsule *)

Lemma dot_self_zero (a : Vec3) : dot (vsub a a) (vsub a a) = 0.
Proof. destruct a as [[x y] z]; cbn; ring. Qed.

Lemma sq_pos (x : R) : x <> 0 -> 0 < x * x.
Proof. intro H. now apply (Rsqr_pos_lt x). Qed.

Lemma sq_nonneg (x : R) : 0 <= x * x.
Proof. apply (Rle_0_sqr x). Qed.

Lemma dot_self_pos (a b : Vec3) :
  a <> b -> 0 < dot (vsub b a) (vsub b a).
Proof.
  destruct a as [[ax ay] az], b as [[bx by_] bz]; intro Hab; cbn.
  pose proof (sq_nonneg (bx - ax)). pose proof (sq_nonneg (by_ - ay)).
  pose proof (sq_nonneg (bz - az)).
  destruct (Req_dec_T bx ax) as [Hx|Hx];
    [destruct (Req_dec_T by_ ay) as [Hy|Hy];
      [destruct (Req_dec_T bz az) as [Hz|Hz]; [subst; congruence|] |] |].
  - pose proof (sq_pos (bz - az)). lra.
  - pose proof (sq_pos (by_ - ay)). lra.
  - pose proof (sq_pos (bx - ax)). lra.
Qed.

Lemma sdCapsule_proper (p a : Vec3) (r1 : R) (b : Vec3) (r2 : R) :
  a <> b -> sdCapsule p a r1 b r2 = Ok (capsule_dist p a r1 b r2).
Proof.
  intro Hab. unfold sdCapsule, capsule_dist.
  rewrite py_div_ok; [reflexivity|].
  pose proof (dot_self_pos a b Hab). lra.
Qed.

Lemma sdCapsule_degenerate (p a : Vec3) (r1 r2 : R) :
  sdCapsule p a r1 a r2 = Raise ZeroDivisionError.
Proof.
  unfold sdCapsule. now rewrite dot_self_zero, py_div_zero.
Qed.

(** C3: on a degenerate segment (both endpoints at [a]) the division by the
    squared segment length is a division by zero, and [sdCapsule] raises
    [ZeroDivisionError] for every query point and radius; it does not return
    the sphere distance. *)
Theorem sdCapsule_equal_endpoints_raises (p a : Vec3) (r : R) :
  sdCapsule p a r a r = Raise ZeroDivisionError.
Proof. apply sdCapsule_degenerate. Qed.

Lemma clamp01_0 : clamp01 0 = 0.
Proof.
  unfold clamp01. destruct (Rlt_dec 1 0); [lra|].
  destruct (Rlt_dec 0 0); reflexivity.
Qed.

Lemma clamp01_nonpos (h : R) : h <= 0 -> clamp01 h = 0.
Proof.
  intro Hh. unfold clamp01. destruct (Rlt_dec 1 h); [lra|].
  destruct (Rlt_dec h 0); lra.
Qed.

Lemma length3_zero (u : Vec3) : dot u u = 0 -> length3 u = 0.
Proof. intro H; unfold length3; rewrite H; apply sqrt_0. Qed.

(** At the first endpoint the distance is minus the first radius. *)
Lemma capsule_dist_at_a (a : Vec3) (r1 : R) (b : Vec3) (r2 : R) :
  capsule_dist a a r1 b r2 = - r1.
Proof.
  unfold capsule_dist.
  assert (E : dot (vsub a a) (vsub b a) / dot (vsub b a) (vsub b a) = 0).
  { replace (dot (vsub a a) (vsub b a)) with 0
      by (destruct a as [[? ?] ?], b as [[? ?] ?]; cbn; ring).
    unfold Rdiv; ring. }
  rewrite E, clamp01_0.
  rewrite length3_zero; [ring|].
  destruct a as [[? ?] ?], b as [[? ?] ?]; cbn; ring.
Qed.

(** Beyond the cap of the first endpoint the distance is that to the sphere
    around it. *)
Lemma capsule_dist_behind_a (p a : Vec3) (r1 : R) (b : Vec3) (r2 : R) :
  a <> b -> dot (vsub p a) (vsub b a) <= 0 ->
  capsule_dist p a r1 b r2 = length3 (vsub p a) - r1.
Proof.
  intros Hab Hdot. unfold capsule_dist.
  pose proof (dot_self_pos a b Hab) as Hpos.
  rewrite clamp01_nonpos by (apply div_nonpos; assumption).
  replace (vsub (vsub p a) (vscale (vsub b a) 0)) with (vsub p a).
  - ring.
  - destruct p as [[? ?] ?], a as [[? ?] ?], b as [[? ?] ?]; cbn.
    apply f_equal2; [apply f_equal2|]; ring.
Qed.

(** ** The smooth minimum *)

Lemma py_log_pos (x : R) : 0 < x -> py_log x = Ok (ln x).
Proof. intro H; unfold py_log; destruct (Rlt_dec 0 x); [reflexivity|lra]. Qed.

Lemma fold_exp_ge (mk : R) (l : list R) (acc : R) :
  acc <= fold_left (fun res value => res + exp (mk * value)) l acc.
Proof.
  revert acc; induction l as [|v l IH]; intro acc; cbn; [lra|].
  pose proof (exp_pos (mk * v)). specialize (IH (acc + exp (mk * v))). lra.
Qed.

Lemma sum_exp_pos (mk : R) (l : list R) : l <> [] -> 0 < sum_exp mk l.
Proof.
  destruct l as [|v l]; [congruence|intros _].
  unfold sum_exp; cbn.
  pose proof (exp_pos (mk * v)).
  pose proof (fold_exp_ge mk l (0 + exp (mk * v))). lra.
Qed.

Lemma copysign_opp_self (v : R) : copysign (- v) v = v.
Proof.
  unfold copysign. rewrite Rabs_Ropp.
  destruct (Rlt_dec v 0).
  - rewrite Rabs_left by assumption. ring.
  - apply Rabs_right. lra.
Qed.

(** On a non-empty list and with [k <> 0] the smooth minimum returns. *)
Lemma smin_ok (k : R) (x : R) (xs : list R) :
  k <> 0 ->
  smin k (x :: xs)
  = Ok (copysign (ln (sum_exp (- k) (x :: xs)) / k) (fold_left Rmin xs x)).
Proof.
  intro Hk. unfold smin. cbn [py_min bind].
  rewrite py_log_pos by (apply sum_exp_pos; discriminate).
  cbn [bind]. now rewrite py_div_ok.
Qed.

(** ** The field *)

Lemma mapM_ok {A B : Type} (f : A -> result B) (g : A -> B) (l : list A) :
  (forall a, In a l -> f a = Ok (g a)) -> mapM f l = Ok (map g l).
Proof.
  induction l as [|a l IH]; intro H; cbn; [reflexivity|].
  rewrite (H a) by now left. cbn.
  rewrite IH by (intros; apply H; now right). reflexivity.
Qed.

Lemma mapM_raise {A B : Type} (f : A -> result B) (a : A) (l : list A)
    (e : pyerror) :
  f a = Raise e -> mapM f (a :: l) = Raise e.
Proof. intro H; cbn; now rewrite H. Qed.

(** With proper segments the list comprehension of [calculateSD] returns the
    capsule distances. *)
Lemma distances_proper (p : Vec3) (segs : list Seg8) :
  (forall s, In s segs -> proper s) ->
  mapM (fun s => sdCapsule p (d0 s, d1 s, d2 s) (d3 s)
                           (d4 s, d5 s, d6 s) (d7 s)) segs
  = Ok (map (seg_dist p) segs).
Proof.
  intro H. apply mapM_ok. intros s Hs.
  now apply sdCapsule_proper, H.
Qed.

(** The field at [p], when every segment is proper and [k <> 0]. *)
Lemma calculateSD_proper (p : Vec3) (s : Seg8) (segs : list Seg8) (k : R) :
  (forall s', In s' (s :: segs) -> proper s') -> k <> 0 ->
  calculateSD p (flatten (s :: segs)) k
  = Ok (copysign
          (ln (sum_exp (- k) (map (seg_dist p) (s :: segs))) / k)
          (fold_left Rmin (map (seg_dist p) segs) (seg_dist p s))).
Proof.
  intros Hp Hk. unfold calculateSD.
  rewrite group8_flatten, distances_proper by assumption.
  cbn [bind map]. now rewrite smin_ok.
Qed.

(** A degenerate first segment makes the field raise at every point. *)
Lemma calculateSD_degenerate (p : Vec3) (s : Seg8) (segs : list Seg8) (k : R) :
  seg_a s = seg_b s ->
  calculateSD p (flatten (s :: segs)) k = Raise ZeroDivisionError.
Proof.
  intro Hab. unfold calculateSD. rewrite group8_flatten.
  rewrite (mapM_raise _ s segs ZeroDivisionError); [reflexivity|].
  unfold seg_a, seg_b in Hab. rewrite <- Hab. apply sdCapsule_degenerate.
Qed.

Lemma calculateSD_single (p : Vec3) (s : Seg8) (k : R) :
  proper s -> 0 < k ->
  calculateSD p (flatten [s]) k = Ok (seg_dist p s).
Proof.
  intros Hp Hk. unfold calculateSD.
  rewrite group8_flatten, distances_proper
    by (intros s' [<-|[]]; assumption).
  cbn [bind map].
  destruct (smin k [seg_dist p s]) eqn:E.
  - pose proof (smin_ok k (seg_dist p s) [] ltac:(lra)) as E'.
    rewrite E' in E. injection E as <-.
    cbn [fold_left]. unfold sum_exp; cbn [fold_left].
    rewrite Rplus_0_l, ln_exp.
    replace (- k * seg_dist p s / k) with (- seg_dist p s) by (field; lra).
    now rewrite copysign_opp_self.
  - rewrite smin_ok in E by lra. discriminate.
Qed.

(** An isolated sphere given as the degenerate capsule [a = b], [ra = rb]
    makes the field raise, so it is positive at no distance (the second
    half of C8). *)
Lemma calculateSD_isolated_sphere_raises :
  ~ (exists eps0, 0 < eps0 /\
       forall eps, 0 < eps < eps0 ->
         exists v, calculateSD (1 + eps, 0, 0) [0; 0; 0; 1; 0; 0; 0; 1] 1
                     = Ok v /\ 0 < v).
Proof.
  intros (eps0 & H0 & H).
  destruct (H (eps0 / 2)) as (v & Hv & _); [lra|].
  pose proof (calculateSD_degenerate (1 + eps0 / 2, 0, 0)
                (mkSeg8 0 0 0 1 0 0 0 1) [] 1 eq_refl) as E.
  cbn [flatten flat_map flat8 d0 d1 d2 d3 d4 d5 d6 d7 app] in E.
  congruence.
Qed.

(** ** The float range and the sampler *)

Lemma steps_spec (start end_ step : R) (i : nat) :
  0 < step ->
  (i < steps start end_ step)%nat <-> start + INR i * step < end_.
Proof.
  intro Hs. unfold steps.
  set (q := (end_ - start) / step).
  assert (Hq : INR i < q <-> start + INR i * step < end_).
  { unfold q. split; intro H.
    - apply (Rmult_lt_compat_r step) in H; [|assumption].
      unfold Rdiv in H. rewrite Rmult_assoc, Rinv_l, Rmult_1_r in H by lra.
      lra.
    - apply (Rmult_lt_reg_r step); [assumption|].
      unfold Rdiv. rewrite Rmult_assoc, Rinv_l, Rmult_1_r by lra. lra. }
  rewrite <- Hq. clear Hq.
  destruct (Zceil_bound q) as [Hlo Hhi].
  rewrite INR_IZR_INZ.
  split; intro H.
  - assert (Hz : (Z.of_nat i < Zceil q)%Z) by lia.
    assert (Hz' : (Z.of_nat i <= Zceil q - 1)%Z) by lia.
    apply IZR_le in Hz'. rewrite minus_IZR in Hz'. lra.
  - assert (Hz : (Z.of_nat i < Zceil q)%Z).
    { apply lt_IZR. lra. }
    lia.
Qed.

Lemma axis_S (start step : R) (n : nat) :
  axis start step (S n) = start :: axis (start + step) step n.
Proof.
  unfold axis. cbn [seq map]. f_equal.
  - cbn; ring.
  - rewrite <- seq_shift, map_map. apply map_ext.
    intro i. rewrite S_INR. ring.
Qed.

(** A loop over [frange] whose body always returns is a fold over the
    values [start + i * step] below [end_]. *)
Lemma for_frange_fold {S : Type} (g : R -> S -> S)
    (body : R -> S -> option (result S)) (end_ step : R) :
  (forall v s, body v s = Some (Ok (g v s))) ->
  forall (n fuel : nat) (start : R) (s : S),
    (n < fuel)%nat ->
    (forall i, (i < n)%nat <-> start + INR i * step < end_) ->
    for_frange fuel start end_ step body s
    = Some (Ok (fold_left (fun s v => g v s) (axis start step n) s)).
Proof.
  intros Hbody. induction n as [|n IH]; intros fuel start s Hfuel Hn.
  - destruct fuel as [|fuel]; [lia|]. cbn [for_frange].
    destruct (Rlt_dec start end_) as [Hlt|_]; [|reflexivity].
    exfalso. assert (H0 : (0 < 0)%nat); [|lia].
    apply Hn. cbn. lra.
  - destruct fuel as [|fuel]; [lia|]. cbn [for_frange].
    destruct (Rlt_dec start end_) as [_|Hge].
    + rewrite Hbody, axis_S. cbn [fold_left].
      apply IH; [lia|].
      intro i. specialize (Hn (Datatypes.S i)). rewrite S_INR in Hn.
      replace (start + step + INR i * step)
        with (start + (INR i + 1) * step) by ring.
      rewrite <- Hn. lia.
    + exfalso. apply Hge.
      assert (H0 : start + INR 0 * step < end_) by (apply Hn; lia).
      cbn in H0. lra.
Qed.

Lemma fold_keep {A B : Type} (P : B -> bool) (f : A -> B) (l : list A)
    (acc : list B) :
  fold_left (fun acc v => if P (f v) then acc ++ [f v] else acc) l acc
  = acc ++ filter P (map f l).
Proof.
  revert acc; induction l as [|a l IH]; intro acc; cbn.
  - now rewrite app_nil_r.
  - rewrite IH. destruct (P (f a)); [|reflexivity].
    now rewrite <- app_assoc.
Qed.

Lemma fold_append {A B : Type} (F : A -> list B) (l : list A) (acc : list B) :
  fold_left (fun acc v => acc ++ F v) l acc = acc ++ flat_map F l.
Proof.
  revert acc; induction l as [|a l IH]; intro acc; cbn.
  - now rewrite app_nil_r.
  - rewrite IH. now rewrite app_assoc.
Qed.

Lemma filter_flat_map {A B : Type} (P : B -> bool) (F : A -> list B)
    (l : list A) :
  filter P (flat_map F l) = flat_map (fun a => filter P (F a)) l.
Proof.
  induction l as [|a l IH]; cbn; [reflexivity|].
  now rewrite filter_app, IH.
Qed.

(** Where the field returns, the innermost body keeps the inside points. *)
Lemma sample_body (segs : list R) (k : R) (p : Vec3) (points : list Vec3) :
  (exists v, calculateSD p segs k = Ok v) ->
  match calculateSD p segs k with
  | Ok value =>
      Some (Ok (if Rlt_dec value 0 then points ++ [p] else points))
  | Raise e => Some (Raise e)
  end
  = Some (Ok (if inside segs k p then points ++ [p] else points)).
Proof.
  intros [v Hv]. unfold inside. rewrite Hv.
  now destruct (Rlt_dec v 0).
Qed.

(** Where the field returns at every point, and for a positive voxel size,
    [sampleSD] returns the inside points of the grid in traversal order. *)
Lemma sampleSD_total_field (l : list R) (vs k : R)
    (x0 y0 z0 x1 y1 z1 : R) (fuel : nat) :
  (forall p, exists v, calculateSD p l k = Ok v) ->
  0 < vs ->
  (steps x0 x1 vs < fuel)%nat ->
  (steps y0 y1 vs < fuel)%nat ->
  (steps z0 z1 vs < fuel)%nat ->
  sampleSD fuel l vs k ((x0, y0, z0), (x1, y1, z1))
  = Some (Ok (filter (inside l k)
                (grid (x0, y0, z0) vs
                   (steps x0 x1 vs) (steps y0 y1 vs) (steps z0 z1 vs)))).
Proof.
  intros Hdef Hvs Hfx Hfy Hfz.
  unfold sampleSD.
  set (zs := axis z0 vs (steps z0 z1 vs)).
  set (ys := axis y0 vs (steps y0 y1 vs)).
  set (gz := fun (x y z : R) (points : list Vec3) =>
               if inside l k (x, y, z) then points ++ [(x, y, z)] else points).
  set (gy := fun (x y : R) (points : list Vec3) =>
               points ++ filter (inside l k) (map (fun z => (x, y, z)) zs)).
  set (gx := fun (x : R) (points : list Vec3) =>
               points ++ flat_map (fun y =>
                 filter (inside l k) (map (fun z => (x, y, z)) zs)) ys).
  assert (Hz : forall x y points,
             for_frange fuel z0 z1 vs (fun z points =>
               match calculateSD (x, y, z) l k with
               | Ok value =>
                   Some (Ok (if Rlt_dec value 0
                             then points ++ [(x, y, z)] else points))
               | Raise e => Some (Raise e)
               end) points
             = Some (Ok (gy x y points))).
  { intros x y points.
    rewrite (for_frange_fold (gz x y)) with (n := steps z0 z1 vs).
    - unfold gy, gz, zs. do 2 f_equal.
      apply (fold_keep (inside l k) (fun z => (x, y, z))).
    - intros z pts. apply sample_body, Hdef.
    - assumption.
    - intro i. now apply steps_spec. }
  assert (Hy : forall x points,
             for_frange fuel y0 y1 vs (fun y points =>
               for_frange fuel z0 z1 vs (fun z points =>
                 match calculateSD (x, y, z) l k with
                 | Ok value =>
                     Some (Ok (if Rlt_dec value 0
                               then points ++ [(x, y, z)] else points))
                 | Raise e => Some (Raise e)
                 end) points) points
             = Some (Ok (gx x points))).
  { intros x points.
    rewrite (for_frange_fold (gy x)) with (n := steps y0 y1 vs).
    - unfold gx, gy, ys. do 2 f_equal.
      apply (fold_append (fun y =>
               filter (inside l k) (map (fun z => (x, y, z)) zs))).
    - intros y pts. apply Hz.
    - assumption.
    - intro i. now apply steps_spec. }
  rewrite (for_frange_fold gx) with (n := steps x0 x1 vs).
  - do 2 f_equal. unfold gx.
    rewrite (fold_append (fun x => flat_map (fun y =>
               filter (inside l k) (map (fun z => (x, y, z)) zs)) ys)).
    cbn [app]. unfold grid. fold zs ys.
    rewrite filter_flat_map. apply flat_map_ext. intro x.
    now rewrite filter_flat_map.
  - intros x pts. apply Hy.
  - assumption.
  - intro i. now apply steps_spec.
Qed.

(** With proper segments and [k <> 0] the field returns at every point. *)
Lemma calculateSD_defined (segs : list Seg8) (k : R) (p : Vec3) :
  segs <> [] -> (forall s, In s segs -> proper s) -> k <> 0 ->
  exists v, calculateSD p (flatten segs) k = Ok v.
Proof.
  intros Hne Hp Hk. destruct segs as [|s segs]; [congruence|].
  rewrite calculateSD_proper by assumption. eexists; reflexivity.
Qed.


(** ** The traversal *)

Lemma mem_In (n : node) (l : list node) : mem n l = true <-> In n l.
Proof.
  unfold mem. rewrite existsb_exists. split.
  - intros (x & Hx & E). apply Nat.eqb_eq in E. now subst.
  - intro H. exists n. split; [assumption|apply Nat.eqb_refl].
Qed.

Lemma mem_false (n : node) (l : list node) : mem n l = false <-> ~ In n l.
Proof.
  rewrite <- mem_In. destruct (mem n l); split; congruence.
Qed.

Lemma pop_last_Some {A : Type} (l l0 : list A) (x : A) :
  pop_last l = Some (l0, x) -> l = l0 ++ [x].
Proof.
  unfold pop_last. destruct (rev l) as [|y r] eqn:E; [discriminate|].
  intro H; injection H as <- <-.
  rewrite <- (rev_involutive l), E. reflexivity.
Qed.

Lemma pop_last_None {A : Type} (l : list A) : pop_last l = None -> l = [].
Proof.
  unfold pop_last. destruct (rev l) as [|y r] eqn:E; [|discriminate].
  intros _. rewrite <- (rev_involutive l), E. reflexivity.
Qed.

(** Where an element of a concatenation sits. *)
Lemma app_split_elt {A : Type} (l1 l2 pre post : list A) (m : A) :
  l1 ++ l2 = pre ++ m :: post ->
  (exists post0, l1 = pre ++ m :: post0 /\ post = post0 ++ l2) \/
  (exists pre', l2 = pre' ++ m :: post /\ pre = l1 ++ pre').
Proof.
  revert pre; induction l1 as [|a l1 IH]; intros pre H.
  - right. exists pre. now split.
  - destruct pre as [|b pre]; cbn in H.
    + injection H as -> <-. left. exists l1. now split.
    + injection H as -> H. destruct (IH pre H) as [(p0 & -> & ->)|(p' & -> & ->)].
      * left. exists p0. now split.
      * right. exists p'. now split.
Qed.

Lemma filter_length_le {A : Type} (P : A -> bool) (l : list A) :
  (List.length (filter P l) <= List.length l)%nat.
Proof.
  induction l as [|a l IH]; cbn; [lia|]. destruct (P a); cbn; lia.
Qed.

Lemma filter_length_mono {A : Type} (P Q : A -> bool) (l : list A) :
  (forall a, P a = true -> Q a = true) ->
  (List.length (filter P l) <= List.length (filter Q l))%nat.
Proof.
  intro H. induction l as [|a l IH]; cbn; [lia|].
  destruct (P a) eqn:EP.
  - rewrite (H a EP). cbn. lia.
  - destruct (Q a); cbn; lia.
Qed.

Lemma filter_length_lt {A : Type} (P Q : A -> bool) (l : list A) (x : A) :
  (forall a, P a = true -> Q a = true) ->
  In x l -> P x = false -> Q x = true ->
  (List.length (filter P l) < List.length (filter Q l))%nat.
Proof.
  intros H Hin HP HQ. induction l as [|a l IH]; [contradiction|].
  cbn. destruct Hin as [->|Hin].
  - rewrite HP, HQ. cbn.
    pose proof (filter_length_mono P Q l H). lia.
  - specialize (IH Hin). destruct (P a) eqn:EP.
    + rewrite (H a EP). cbn. lia.
    + destruct (Q a); cbn; lia.
Qed.

Lemma filter_nil {A : Type} (P : A -> bool) (l : list A) :
  (forall a, In a l -> P a = false) -> filter P l = [].
Proof.
  induction l as [|a l IH]; intro H; cbn; [reflexivity|].
  rewrite (H a) by now left. apply IH. intros; apply H; now right.
Qed.

Lemma max_degree_bound (sc : Scene) (V : list node) (n : node) :
  In n V -> (List.length (childN sc n) <= max_degree sc V)%nat.
Proof.
  intro H. unfold max_degree.
  assert (HF : Forall (fun k => (k <= list_max
             (map (fun n => List.length (childN sc n)) V))%nat)
             (map (fun n => List.length (childN sc n)) V))
    by now apply list_max_le.
  rewrite Forall_forall in HF. apply HF.
  apply in_map_iff. now exists n.
Qed.

Lemma nodeData_flat (sc : Scene) (p n : node) :
  exists s, nodeData sc p ++ nodeData sc n = flat8 s.
Proof.
  unfold nodeData.
  destruct (translate sc p) as [[px py] pz], (scale sc p) as [[a b] c].
  destruct (translate sc n) as [[nx ny] nz], (scale sc n) as [[d e] f].
  now exists (mkSeg8 px py pz (Rmax (Rmax a b) c) nx ny nz (Rmax (Rmax d e) f)).
Qed.

Lemma flatten_snoc (segs : list Seg8) (s : Seg8) :
  flatten (segs ++ [s]) = flatten segs ++ flat8 s.
Proof.
  unfold flatten. rewrite flat_map_app. cbn [flat_map].
  now rewrite app_nil_r.
Qed.

Section Traversal.

Variable sc : Scene.

(** The nodes of the graph: a finite list closed under [childN]. *)
Variable V : list node.
Hypothesis V_closed :
  forall n, In n V -> forall c, In c (childN sc n) -> In c V.

Lemma walk_step_shape (w w' : Walk) :
  walk_step sc w = Some w' ->
  exists S0 n,
    uncheckedN w = S0 ++ [n] /\
    checkedN w' = checkedN w ++ [n] /\
    uncheckedN w' =
      S0 ++ filter (fun c => negb (mem c (checkedN w ++ [n]))) (childN sc n) /\
    lineSegments w' =
      match parentN sc n with
      | Some p => lineSegments w ++ nodeData sc p ++ nodeData sc n
      | None => lineSegments w
      end.
Proof.
  unfold walk_step.
  destruct (pop_last (uncheckedN w)) as [[S0 n]|] eqn:E; [|discriminate].
  intro H; injection H as <-. cbn.
  exists S0, n. repeat split. now apply pop_last_Some.
Qed.

Lemma walk_step_inv (w w' : Walk) :
  walk_inv sc V w -> walk_step sc w = Some w' -> walk_inv sc V w'.
Proof.
  intros (HV & Hstale & segs & Hsegs) Hstep.
  destruct (walk_step_shape w w' Hstep) as (S0 & n & HS & HC & HS' & HL).
  assert (HnV : In n V).
  { apply HV. rewrite HS. apply in_or_app. right. now left. }
  split; [|split].
  - intros m Hm. rewrite HS' in Hm. apply in_app_or in Hm.
    destruct Hm as [Hm|Hm].
    + apply HV. rewrite HS. apply in_or_app. now left.
    + apply filter_In in Hm. destruct Hm as [Hm _].
      now apply (V_closed n).
  - intros pre m post Hsplit Hm c Hc.
    rewrite HS' in Hsplit. rewrite HC in *.
    apply app_split_elt in Hsplit.
    destruct Hsplit as [(post0 & -> & ->)|(pre' & HF & _)].
    + destruct (mem c (checkedN w ++ [n])) eqn:Ec.
      { left. now apply mem_In. }
      apply in_app_or in Hm. destruct Hm as [Hm|[<-|[]]].
      * destruct (Hstale pre m (post0 ++ [n])) with (c := c) as [H1|H1];
          try assumption.
        { rewrite HS, <- app_assoc. reflexivity. }
        { left. apply in_or_app. now left. }
        { apply in_app_or in H1. destruct H1 as [H1|[<-|[]]].
          - right. apply in_or_app. now left.
          - left. apply in_or_app. right. now left. }
      * right. apply in_or_app. right.
        apply filter_In. split; [assumption|]. now rewrite Ec.
    + exfalso.
      assert (Hin : In m (filter
                (fun c => negb (mem c (checkedN w ++ [n]))) (childN sc n))).
      { rewrite HF. apply in_or_app. right. now left. }
      apply filter_In in Hin. destruct Hin as [_ Hneg].
      apply mem_In in Hm. rewrite Hm in Hneg. discriminate.
  - rewrite HL. destruct (parentN sc n) as [p|].
    + destruct (nodeData_flat sc p n) as [s Hs].
      exists (segs ++ [s]). now rewrite flatten_snoc, Hsegs, Hs.
    + now exists segs.
Qed.

Lemma walk_step_measure (w w' : Walk) :
  walk_inv sc V w -> walk_step sc w = Some w' ->
  (walk_measure sc V w' < walk_measure sc V w)%nat.
Proof.
  intros (HV & Hstale & _) Hstep.
  destruct (walk_step_shape w w' Hstep) as (S0 & n & HS & HC & HS' & _).
  assert (HnV : In n V).
  { apply HV. rewrite HS. apply in_or_app. right. now left. }
  unfold walk_measure, unseen. rewrite HS', HC, HS, !length_app.
  cbn [List.length].
  set (D := max_degree sc V).
  set (F := filter (fun c => negb (mem c (checkedN w ++ [n]))) (childN sc n)).
  assert (Hmono : forall a,
             negb (mem a (checkedN w ++ [n])) = true ->
             negb (mem a (checkedN w)) = true).
  { intros a Ha. apply negb_true_iff in Ha. apply negb_true_iff.
    apply mem_false in Ha. apply mem_false. intro Hin. apply Ha.
    apply in_or_app. now left. }
  destruct (mem n (checkedN w)) eqn:En.
  - (* the node was taken before: nothing is appended *)
    assert (HF : F = []).
    { apply filter_nil. intros c Hc. apply negb_false_iff, mem_In.
      apply mem_In in En.
      destruct (Hstale S0 n [] HS En c Hc) as [H|[]].
      apply in_or_app. now left. }
    rewrite HF. cbn [List.length].
    pose proof (filter_length_mono
                  (fun a => negb (mem a (checkedN w ++ [n])))
                  (fun a => negb (mem a (checkedN w))) V Hmono).
    nia.
  - (* a new node: one node fewer is unseen *)
    assert (HF : (List.length F <= D)%nat).
    { unfold F, D. eapply Nat.le_trans; [apply filter_length_le|].
      now apply max_degree_bound. }
    assert (Hlt : (List.length
                     (filter (fun a => negb (mem a (checkedN w ++ [n]))) V)
                   < List.length
                     (filter (fun a => negb (mem a (checkedN w))) V))%nat).
    { apply (filter_length_lt _ _ V n); try assumption.
      - apply negb_false_iff, mem_In, in_or_app. right. now left.
      - now rewrite En. }
    nia.
Qed.

Lemma walk_step_None (w : Walk) :
  walk_step sc w = None -> uncheckedN w = [].
Proof.
  unfold walk_step.
  destruct (pop_last (uncheckedN w)) as [[S0 n]|] eqn:E; [discriminate|].
  intros _. now apply pop_last_None.
Qed.

(** With fuel above the measure the loop ends, and the invariant holds
    of the state it ends in. *)
Lemma walk_terminates (fuel : nat) :
  forall w, walk_inv sc V w ->
    (walk_measure sc V w < fuel)%nat ->
    exists w', walk fuel sc w = Some w' /\ walk_inv sc V w' /\
               uncheckedN w' = [].
Proof.
  induction fuel as [|fuel IH]; intros w Hinv Hfuel; [lia|].
  cbn [walk]. destruct (walk_step sc w) as [w1|] eqn:E.
  - apply IH.
    + now apply (walk_step_inv w).
    + pose proof (walk_step_measure w w1 Hinv E). lia.
  - exists w. split; [reflexivity|].
    split; [assumption|now apply walk_step_None].
Qed.

End Traversal.

Lemma walk_inv_init (sc : Scene) (V : list node) (root : node) :
  In root V -> walk_inv sc V (mkWalk [root] [] []).
Proof.
  intro H. split; [|split]; cbn.
  - intros n [<-|[]]. assumption.
  - intros pre n post _ [].
  - now exists [].
Qed.

(** On a finite graph [findLineSegments] returns, and what it returns is a
    whole number of groups of eight. *)
Lemma findLineSegments_returns (sc : Scene) (V : list node) (root : node) :
  In root V ->
  (forall n, In n V -> forall c, In c (childN sc n) -> In c V) ->
  forall fuel,
    (walk_measure sc V (mkWalk [root] [] []) < fuel)%nat ->
    exists segs, findLineSegments fuel sc root = Some (flatten segs).
Proof.
  intros Hroot Hclosed fuel Hfuel.
  destruct (walk_terminates sc V Hclosed fuel (mkWalk [root] [] []))
    as (w' & Hw & (_ & _ & segs & Hsegs) & _).
  - now apply walk_inv_init.
  - assumption.
  - exists segs. unfold findLineSegments. rewrite Hw. cbn. now rewrite Hsegs.
Qed.

(** C10: on every finite graph [findLineSegments] returns a list whose
    length is a multiple of 8, and grouping it by eight drops nothing. *)
Theorem findLineSegments_length_multiple_of_8
    (sc : Scene) (V : list node) (root : node) :
  In root V ->
  (forall n, In n V -> forall c, In c (childN sc n) -> In c V) ->
  exists fuel0, forall fuel, (fuel0 <= fuel)%nat ->
    exists l,
      findLineSegments fuel sc root = Some l /\
      (exists n, List.length l = (8 * n)%nat) /\
      flatten (group8 l) = l.
Proof.
  intros Hroot Hclosed.
  exists (S (walk_measure sc V (mkWalk [root] [] []))).
  intros fuel Hfuel.
  destruct (findLineSegments_returns sc V root Hroot Hclosed fuel)
    as [segs Hsegs]; [lia|].
  exists (flatten segs). split; [assumption|]. split.
  - exists (List.length segs). apply length_flatten.
  - now rewrite group8_flatten.
Qed.

Lemma findLineSegments_length_multiple_of_8_witness :
  exists fuel0, forall fuel, (fuel0 <= fuel)%nat ->
    exists l,
      findLineSegments fuel shared_child_scene 0%nat = Some l /\
      (exists n, List.length l = (8 * n)%nat) /\
      flatten (group8 l) = l.
Proof.
  apply (findLineSegments_length_multiple_of_8 shared_child_scene
           [0; 1; 2]%nat 0%nat).
  - now left.
  - intros n Hn c Hc.
    destruct Hn as [<-|[<-|[<-|[]]]]; cbn in Hc; intuition (subst; cbn; auto).
Defined.

(** C4: in a scene where node 2 is a child of both node 0 and node 1, the
    loop takes node 2 from [uncheckedN] twice: it is appended once while
    node 0 is handled and once more while node 1 is handled, since
    [checkedN] holds only the nodes already taken.  The edge 1 -> 2 then
    gives two segments. *)
Theorem findLineSegments_takes_shared_child_twice :
  popped 5 shared_child_scene 0%nat = Some [0; 1; 2; 2]%nat /\
  findLineSegments 5 shared_child_scene 0%nat
  = Some ((nodeData shared_child_scene 0%nat ++ nodeData shared_child_scene 1%nat)
          ++ (nodeData shared_child_scene 1%nat ++ nodeData shared_child_scene 2%nat)
          ++ (nodeData shared_child_scene 1%nat ++ nodeData shared_child_scene 2%nat)).
Proof. split; reflexivity. Qed.

(** ** export *)

Section Exporter.

Variable str_float : R -> string.

Lemma export_short (fuel : nat) (sc : Scene) (root : node)
    (rest : list node) (w : World) (folder file : string) (vs k : R)
    (ls : list R) :
  findLineSegments fuel sc root = Some ls ->
  (List.length ls < 8)%nat ->
  export str_float fuel sc (root :: rest) w folder file vs k
  = Some (Ok tt, w).
Proof.
  intros Hls Hlen. unfold export, findFromSelection. rewrite Hls.
  assert (E : (7 <? List.length ls)%nat = false)
    by (apply Nat.ltb_ge; lia).
  now rewrite E.
Qed.

Lemma export_long (fuel : nat) (sc : Scene) (root : node)
    (rest : list node) (w : World) (folder file : string) (vs k : R)
    (ls : list R) :
  findLineSegments fuel sc root = Some ls ->
  (8 <= List.length ls)%nat ->
  export str_float fuel sc (root :: rest) w folder file vs k
  = match findBoundingBox ls vs with
    | Raise e => Some (Raise e, w)
    | Ok bbox =>
        match sampleSD fuel ls vs k bbox with
        | None => None
        | Some (Raise e) => Some (Raise e, w)
        | Some (Ok points) =>
            Some (Ok tt,
                  print "File written."
                    (write str_float (folder ++ "/" ++ file) points w))
        end
    end.
Proof.
  intros Hls Hlen. unfold export, findFromSelection. rewrite Hls.
  assert (E : (7 <? List.length ls)%nat = true)
    by (apply Nat.ltb_lt; lia).
  now rewrite E.
Qed.

End Exporter.

(** C5: when the list [findLineSegments] returns holds fewer than 8 values
    [export] returns without an error and leaves the world as it was: no
    file, nothing printed.  When it holds 8 or more, [export] goes through
    the bounds, the sampling and the writing in turn: it raises what
    [findBoundingBox] or [sampleSD] raise, and otherwise writes the sampled
    points and prints that the file is written. *)
Theorem export_threshold (str_float : R -> string) (fuel : nat) (sc : Scene)
    (root : node) (rest : list node) (w : World) (folder file : string)
    (vs k : R) (ls : list R) :
  findLineSegments fuel sc root = Some ls ->
  ((List.length ls < 8)%nat ->
     export str_float fuel sc (root :: rest) w folder file vs k
     = Some (Ok tt, w))
  /\
  ((8 <= List.length ls)%nat ->
     (forall e, findBoundingBox ls vs = Raise e ->
        export str_float fuel sc (root :: rest) w folder file vs k
        = Some (Raise e, w)) /\
     (forall bbox, findBoundingBox ls vs = Ok bbox ->
        (sampleSD fuel ls vs k bbox = None ->
           export str_float fuel sc (root :: rest) w folder file vs k = None)
        /\
        (forall e, sampleSD fuel ls vs k bbox = Some (Raise e) ->
           export str_float fuel sc (root :: rest) w folder file vs k
           = Some (Raise e, w))
        /\
        (forall points, sampleSD fuel ls vs k bbox = Some (Ok points) ->
           export str_float fuel sc (root :: rest) w folder file vs k
           = Some (Ok tt,
                   print "File written."
                     (write str_float (folder ++ "/" ++ file) points w))))).
Proof.
  intro Hls. split.
  - now apply export_short.
  - intro Hlen.
    rewrite (export_long str_float fuel sc root rest w folder file vs k ls)
      by assumption.
    split.
    + intros e ->. reflexivity.
    + intros bbox ->. repeat split.
      * intros ->. reflexivity.
      * intros e ->. reflexivity.
      * intros points ->. reflexivity.
Qed.

Lemma walk_fuel_mono (sc : Scene) (fuel : nat) :
  forall w w', walk fuel sc w = Some w' ->
    forall fuel', (fuel <= fuel')%nat -> walk fuel' sc w = Some w'.
Proof.
  induction fuel as [|fuel IH]; intros w w' H fuel' Hle; [discriminate|].
  destruct fuel' as [|fuel']; [lia|].
  cbn [walk] in *. destruct (walk_step sc w) as [w1|]; [|assumption].
  apply (IH w1 w' H). lia.
Qed.

Lemma findLineSegments_fuel_mono (sc : Scene) (root : node) (fuel : nat)
    (ls : list R) :
  findLineSegments fuel sc root = Some ls ->
  forall fuel', (fuel <= fuel')%nat -> findLineSegments fuel' sc root = Some ls.
Proof.
  unfold findLineSegments. intros H fuel' Hle.
  destruct (walk fuel sc (mkWalk [root] [] [])) as [w'|] eqn:E; [|discriminate].
  now rewrite (walk_fuel_mono sc fuel _ w' E fuel' Hle).
Qed.

(** With at least one segment, proper segments, a positive voxel size and
    [k > 0], [export] writes the file. *)
Lemma export_writes (str_float : R -> string) (sc : Scene) (root : node)
    (rest : list node) (w : World) (folder file : string) (vs k : R)
    (segs : list Seg8) (fuel1 : nat) :
  findLineSegments fuel1 sc root = Some (flatten segs) ->
  segs <> [] -> (forall s, In s segs -> proper s) ->
  0 < vs -> 0 < k ->
  exists fuel0, forall fuel, (fuel0 <= fuel)%nat ->
    exists points,
      export str_float fuel sc (root :: rest) w folder file vs k
      = Some (Ok tt,
              print "File written."
                (write str_float (folder ++ "/" ++ file) points w)).
Proof.
  intros Hls Hne Hp Hvs Hk.
  destruct segs as [|s segs]; [congruence|].
  destruct (findBoundingBox_flatten s segs vs) as (r & rs & _ & Hbox); [lra|].
  destruct (box_of (extrema r rs) vs) as [lo hi] eqn:Ebox.
  destruct lo as [[x0 y0] z0], hi as [[x1 y1] z1].
  exists (Nat.max fuel1
            (S (Nat.max (steps x0 x1 vs)
                  (Nat.max (steps y0 y1 vs) (steps z0 z1 vs))))).
  intros fuel Hfuel.
  eexists.
  rewrite (export_long str_float fuel sc root rest w folder file vs k
             (flatten (s :: segs))).
  - rewrite Hbox. cbv beta iota. unfold Vec3.
    rewrite (sampleSD_total_field (flatten (s :: segs)) vs k
               x0 y0 z0 x1 y1 z1 fuel).
    + reflexivity.
    + intro p. apply calculateSD_defined; try assumption. lra.
    + assumption.
    + lia.
    + lia.
    + lia.
  - apply (findLineSegments_fuel_mono sc root fuel1); [assumption|lia].
  - rewrite length_flatten. cbn [List.length]. lia.
Qed.

Lemma export_threshold_witness :
  export (fun _ => "0"%string) 2 single_scene [0%nat] empty_world
    "dir" "cloud" (1 / 2) 4
  = Some (Ok tt, empty_world)
  /\
  exists fuel points,
    export (fun _ => "0"%string) fuel pair_scene [0%nat] empty_world
      "dir" "cloud" (1 / 2) 4
    = Some (Ok tt,
            print "File written."
              (write (fun _ => "0"%string) ("dir" ++ "/" ++ "cloud") points
                 empty_world)).
Proof.
  split.
  - apply (proj1 (export_threshold (fun _ => "0"%string) 2 single_scene
                    0%nat [] empty_world "dir" "cloud" (1 / 2) 4 []
                    eq_refl)).
    cbn; lia.
  - set (s := mkSeg8 0 0 0 (Rmax (Rmax 1 1) 1) 3 0 0 (Rmax (Rmax 1 1) 1)).
    assert (Hls : findLineSegments 3 pair_scene 0%nat = Some (flatten [s]))
      by reflexivity.
    assert (Hp : forall s', In s' [s] -> proper s').
    { intros s' [<-|[]]. unfold proper, seg_a, seg_b; cbn.
      intro E; injection E; lra. }
    destruct (findBoundingBox_flatten s [] (1 / 2))
      as (r & rs & _ & Hbox); [lra|].
    destruct (box_of (extrema r rs) (1 / 2)) as [[[x0 y0] z0] [[x1 y1] z1]].
    set (fuel := Nat.max 3
                   (S (Nat.max (steps x0 x1 (1 / 2))
                         (Nat.max (steps y0 y1 (1 / 2))
                                  (steps z0 z1 (1 / 2)))))).
    assert (Hs : sampleSD fuel (flatten [s]) (1 / 2) 4
                   ((x0, y0, z0), (x1, y1, z1))
                 = Some (Ok (filter (inside (flatten [s]) 4)
                      (grid (x0, y0, z0) (1 / 2)
                         (steps x0 x1 (1 / 2)) (steps y0 y1 (1 / 2))
                         (steps z0 z1 (1 / 2)))))).
    { apply sampleSD_total_field; try (unfold fuel; lia); try lra.
      intro p. apply calculateSD_defined;
        [discriminate | assumption | lra]. }
    exists fuel. eexists.
    refine (proj2 (proj2 (proj2 (proj2
              (export_threshold (fun _ => "0"%string) fuel pair_scene
                 0%nat [] empty_world "dir" "cloud" (1 / 2) 4 (flatten [s])
                 _) _) _ Hbox)) _ Hs).
    + apply (findLineSegments_fuel_mono pair_scene 0%nat 3);
        [exact Hls | unfold fuel; lia].
    + cbn; lia.
Defined.

(** ** Inputs the specification calls invalid *)

Lemma bind_neq {A B : Type} (m : result A) (f : A -> result B) (e : pyerror) :
  m <> Raise e -> (forall a, f a <> Raise e) -> bind m f <> Raise e.
Proof.
  intros Hm Hf. destruct m as [a|e']; cbn; [apply Hf|].
  intro E. apply Hm. injection E as ->. reflexivity.
Qed.

Lemma py_index_not_InvalidInput (l : list R) (i : nat) :
  py_index l i <> Raise InvalidInput.
Proof. unfold py_index. destruct (nth_error l i); discriminate. Qed.

Lemma snap_not_InvalidInput (v s : R) : snap v s <> Raise InvalidInput.
Proof.
  unfold snap, py_div.
  destruct (Rlt_dec 0 v), (Req_dec_T s 0); cbn; discriminate.
Qed.

Lemma xyzMin_not_InvalidInput (xyz : list Row6) :
  xyzMin xyz <> Raise InvalidInput.
Proof.
  destruct xyz as [|r1 [|r2 rs]]; discriminate.
Qed.

Lemma first_row_not_InvalidInput (l : list R) :
  first_row l <> Raise InvalidInput.
Proof.
  unfold first_row.
  repeat (apply bind_neq; [apply py_index_not_InvalidInput | intro]).
  discriminate.
Qed.

Lemma findBoundingBox_not_InvalidInput (l : list R) (vs : R) :
  findBoundingBox l vs <> Raise InvalidInput.
Proof.
  unfold findBoundingBox. cbv zeta.
  repeat (apply bind_neq;
          [first [ apply first_row_not_InvalidInput
                 | apply xyzMin_not_InvalidInput
                 | apply snap_not_InvalidInput ]
          | intro ]).
  discriminate.
Qed.

Lemma findBoundingBox_nil (vs : R) : findBoundingBox [] vs = Raise IndexError.
Proof. reflexivity. Qed.

Lemma findBoundingBox_zero (s : Seg8) (segs : list Seg8) :
  findBoundingBox (flatten (s :: segs)) 0 = Raise ZeroDivisionError.
Proof.
  unfold findBoundingBox, child_rows.
  rewrite group8_flatten, first_row_flatten.
  cbn [bind map app].
  destruct (map (fun d => row_of (d4 d) (d5 d) (d6 d) (d7 d)) segs
            ++ [row_of (d0 s) (d1 s) (d2 s) (d3 s)]) as [|r2 rs] eqn:E.
  { now destruct (map _ segs). }
  rewrite xyzMin_two. cbn [bind]. now rewrite snap_zero.
Qed.

(** C2, as the code has it: no path of [findBoundingBox] raises
    [InvalidInput].  On a list that holds at least one segment a voxel size
    of zero makes it (and [export]) raise [ZeroDivisionError], and a
    negative voxel size makes it return a box.  On the empty list it raises
    [IndexError]; [export] does not call it then and returns without an
    error. *)
Theorem findBoundingBox_invalid_inputs (str_float : R -> string)
    (fuel : nat) (sc : Scene) (root : node) (rest : list node) (w : World)
    (folder file : string) (k vs : R) (segs : list Seg8) :
  segs <> [] ->
  findBoundingBox (flatten segs) 0 = Raise ZeroDivisionError /\
  (vs < 0 -> exists box, findBoundingBox (flatten segs) vs = Ok box) /\
  (forall vs', findBoundingBox [] vs' = Raise IndexError) /\
  (forall l vs', findBoundingBox l vs' <> Raise InvalidInput) /\
  (findLineSegments fuel sc root = Some (flatten segs) ->
     export str_float fuel sc (root :: rest) w folder file 0 k
     = Some (Raise ZeroDivisionError, w)) /\
  (findLineSegments fuel sc root = Some [] ->
     forall vs',
       export str_float fuel sc (root :: rest) w folder file vs' k
       = Some (Ok tt, w)).
Proof.
  intro Hne. destruct segs as [|s segs]; [congruence|].
  split; [apply findBoundingBox_zero|].
  split.
  { intro Hvs.
    destruct (findBoundingBox_flatten s segs vs) as (r & rs & _ & H); [lra|].
    eexists; exact H. }
  split; [apply findBoundingBox_nil|].
  split; [apply findBoundingBox_not_InvalidInput|].
  split.
  - intro Hls.
    rewrite (export_long str_float fuel sc root rest w folder file 0 k
               (flatten (s :: segs))); try assumption.
    + now rewrite findBoundingBox_zero.
    + rewrite length_flatten. cbn [List.length]. lia.
  - intros Hls vs'.
    apply (export_short str_float fuel sc root rest w folder file vs' k []);
      [assumption|cbn; lia].
Qed.

Lemma findBoundingBox_invalid_inputs_witness :
  (findBoundingBox [0; 0; 0; Rmax (Rmax 1 1) 1; 3; 0; 0; Rmax (Rmax 1 1) 1] 0
     = Raise ZeroDivisionError /\
   exists box,
     findBoundingBox [0; 0; 0; Rmax (Rmax 1 1) 1; 3; 0; 0; Rmax (Rmax 1 1) 1]
       (-1) = Ok box) /\
  export (fun _ => "0"%string) 3 pair_scene [0%nat] empty_world
    "dir" "cloud" 0 4
  = Some (Raise ZeroDivisionError, empty_world) /\
  export (fun _ => "0"%string) 2 single_scene [0%nat] empty_world
    "dir" "cloud" 0 4
  = Some (Ok tt, empty_world).
Proof.
  pose proof (findBoundingBox_invalid_inputs (fun _ => "0"%string) 3
                pair_scene 0%nat [] empty_world "dir" "cloud" 4 (-1)
                [mkSeg8 0 0 0 (Rmax (Rmax 1 1) 1) 3 0 0 (Rmax (Rmax 1 1) 1)]
                ltac:(discriminate))
    as (H0 & Hneg & _ & _ & Hexp & _).
  pose proof (findBoundingBox_invalid_inputs (fun _ => "0"%string) 2
                single_scene 0%nat [] empty_world "dir" "cloud" 4 (-1)
                [mkSeg8 0 0 0 1 3 0 0 1] ltac:(discriminate))
    as (_ & _ & _ & _ & _ & Hnoop).
  split; [split|split].
  - exact H0.
  - apply Hneg. lra.
  - apply Hexp. reflexivity.
  - apply Hnoop. reflexivity.
Defined.

(** C2, as stated, fails on [findBoundingBox]: a voxel size of zero gives
    [ZeroDivisionError], a negative one gives a box, and the empty list
    gives [IndexError]; none of them is [InvalidInput]. *)
Lemma findBoundingBox_InvalidInput_counterexample :
  ~ (forall (l : list R) (vs : R),
       vs <= 0 \/ l = [] -> findBoundingBox l vs = Raise InvalidInput).
Proof.
  intro H. specialize (H [] 1 (or_intror eq_refl)).
  rewrite findBoundingBox_nil in H. discriminate.
Qed.

(** * Further properties *)

(** ** Grouping by eight and the values left over *)

Lemma group8_tail8_aux (n : nat) :
  forall l, (List.length l <= n)%nat ->
    l = flatten (group8 l) ++ tail8 l /\ (List.length (tail8 l) < 8)%nat.
Proof.
  induction n as [n IH] using (well_founded_induction lt_wf).
  intros l Hl.
  destruct l as [|a [|b [|c [|d [|e [|f [|g [|h rest]]]]]]]];
    try (split; [reflexivity | cbn; lia]).
  cbn [group8 tail8].
  destruct (IH (List.length rest)) with (l := rest) as [E Hlen];
    [cbn in Hl; lia | lia |].
  split; [|assumption].
  unfold flatten in *. cbn [flat_map flat8 d0 d1 d2 d3 d4 d5 d6 d7 app].
  now rewrite <- E.
Qed.

Lemma group8_tail8 (l : list R) :
  l = flatten (group8 l) ++ tail8 l /\ (List.length (tail8 l) < 8)%nat.
Proof. now apply (group8_tail8_aux (List.length l)). Qed.

Lemma group8_short (l : list R) : (List.length l < 8)%nat -> group8 l = [].
Proof.
  intro H.
  destruct l as [|a [|b [|c [|d [|e [|f [|g [|h rest]]]]]]]];
    try reflexivity.
  cbn in H; lia.
Qed.

Lemma group8_flatten_app (segs : list Seg8) (tail : list R) :
  (List.length tail < 8)%nat -> group8 (flatten segs ++ tail) = segs.
Proof.
  intro H. induction segs as [|s segs IH].
  - now apply group8_short.
  - unfold flatten in *. cbn [flat_map]. rewrite <- app_assoc.
    now rewrite group8_flat8, IH.
Qed.

Lemma group8_nonempty (l : list R) :
  (8 <= List.length l)%nat -> group8 l <> [].
Proof.
  intro H.
  destruct l as [|a [|b [|c [|d [|e [|f [|g [|h rest]]]]]]]];
    cbn in H; try lia.
  discriminate.
Qed.

(** ** More on the bounding box *)

Lemma findBoundingBox_lt4 (l : list R) (vs : R) :
  (List.length l < 4)%nat -> findBoundingBox l vs = Raise IndexError.
Proof.
  intro H. destruct l as [|a [|b [|c [|d rest]]]]; try reflexivity.
  cbn in H; lia.
Qed.

Lemma findBoundingBox_4_to_7 (l : list R) (vs : R) :
  (4 <= List.length l < 8)%nat -> findBoundingBox l vs = Raise TypeError.
Proof.
  intro H.
  destruct l as [|a [|b [|c [|d [|e [|f [|g [|h rest]]]]]]]];
    cbn in H; try lia; reflexivity.
Qed.

Lemma first_row_app (s : Seg8) (segs : list Seg8) (tail : list R) :
  first_row (flatten (s :: segs) ++ tail) = first_row (flatten (s :: segs)).
Proof. reflexivity. Qed.

Lemma findBoundingBox_app_tail (segs : list Seg8) (tail : list R) (vs : R) :
  segs <> [] -> (List.length tail < 8)%nat ->
  findBoundingBox (flatten segs ++ tail) vs = findBoundingBox (flatten segs) vs.
Proof.
  intros Hne Ht. destruct segs as [|s segs]; [congruence|].
  unfold findBoundingBox, child_rows.
  now rewrite group8_flatten_app, group8_flatten, first_row_app.
Qed.

(** X1: what [findBoundingBox] does, by the length of the list: fewer than
    4 values raise [IndexError], 4 to 7 values raise [TypeError], and from
    8 values on the call raises [ZeroDivisionError] for a voxel size of zero
    and returns a box for every other voxel size. *)
Theorem findBoundingBox_outcome (l : list R) (vs : R) :
  ((List.length l < 4)%nat -> findBoundingBox l vs = Raise IndexError) /\
  ((4 <= List.length l < 8)%nat -> findBoundingBox l vs = Raise TypeError) /\
  ((8 <= List.length l)%nat -> vs = 0 ->
     findBoundingBox l vs = Raise ZeroDivisionError) /\
  ((8 <= List.length l)%nat -> vs <> 0 ->
     exists box, findBoundingBox l vs = Ok box).
Proof.
  split; [apply findBoundingBox_lt4|].
  split; [apply findBoundingBox_4_to_7|].
  destruct (group8_tail8 l) as [E Ht].
  split; intros Hlen Hvs.
  - pose proof (group8_nonempty l Hlen) as Hne.
    rewrite E, findBoundingBox_app_tail by assumption.
    destruct (group8 l) as [|s segs]; [congruence|].
    subst vs. apply findBoundingBox_zero.
  - pose proof (group8_nonempty l Hlen) as Hne.
    rewrite E, findBoundingBox_app_tail by assumption.
    destruct (group8 l) as [|s segs]; [congruence|].
    destruct (findBoundingBox_flatten s segs vs Hvs) as (r & rs & _ & H).
    eexists; exact H.
Qed.

Lemma findBoundingBox_outcome_witness :
  findBoundingBox [1; 2; 3] 1 = Raise IndexError /\
  findBoundingBox [1; 2; 3; 4; 5] 1 = Raise TypeError /\
  findBoundingBox [0; 0; 0; 1; 3; 0; 0; 1; 7] 0 = Raise ZeroDivisionError /\
  exists box, findBoundingBox [0; 0; 0; 1; 3; 0; 0; 1; 7] (-1) = Ok box.
Proof.
  split; [|split; [|split]].
  - apply (proj1 (findBoundingBox_outcome [1; 2; 3] 1)). cbn; lia.
  - apply (proj1 (proj2 (findBoundingBox_outcome [1; 2; 3; 4; 5] 1))).
    cbn; lia.
  - apply (proj1 (proj2 (proj2
             (findBoundingBox_outcome [0; 0; 0; 1; 3; 0; 0; 1; 7] 0))));
      [cbn; lia | reflexivity].
  - apply (proj2 (proj2 (proj2
             (findBoundingBox_outcome [0; 0; 0; 1; 3; 0; 0; 1; 7] (-1)))));
      [cbn; lia | lra].
Defined.

Lemma for_frange_ext {S : Type} (body body' : R -> S -> option (result S))
    (end_ step : R) :
  (forall v s, body v s = body' v s) ->
  forall fuel value s,
    for_frange fuel value end_ step body s
    = for_frange fuel value end_ step body' s.
Proof.
  intros Hb. induction fuel as [|fuel IH]; intros value s; [reflexivity|].
  cbn [for_frange]. destruct (Rlt_dec value end_); [|reflexivity].
  rewrite Hb. destruct (body' value s) as [[s'|e]|]; try reflexivity.
  apply IH.
Qed.

Lemma calculateSD_app_tail (p : Vec3) (segs : list Seg8) (tail : list R)
    (k : R) :
  (List.length tail < 8)%nat ->
  calculateSD p (flatten segs ++ tail) k = calculateSD p (flatten segs) k.
Proof.
  intro Ht. unfold calculateSD.
  now rewrite group8_flatten_app, group8_flatten.
Qed.

(** X2: the values after the last whole group of eight take no part: the
    box, the field and the sampled points are those of the list without
    them. *)
Theorem trailing_values_ignored (segs : list Seg8) (tail : list R)
    (vs k : R) (p : Vec3) (box : BoundingBox) (fuel : nat) :
  (List.length tail < 8)%nat ->
  (segs <> [] ->
     findBoundingBox (flatten segs ++ tail) vs
     = findBoundingBox (flatten segs) vs) /\
  calculateSD p (flatten segs ++ tail) k = calculateSD p (flatten segs) k /\
  sampleSD fuel (flatten segs ++ tail) vs k box
  = sampleSD fuel (flatten segs) vs k box.
Proof.
  intro Ht. split; [|split].
  - intro Hne. now apply findBoundingBox_app_tail.
  - now apply calculateSD_app_tail.
  - destruct box as [[[x0 y0] z0] [[x1 y1] z1]]. unfold sampleSD.
    apply for_frange_ext. intros x pts.
    apply for_frange_ext. intros y pts'.
    apply for_frange_ext. intros z pts''.
    now rewrite calculateSD_app_tail.
Qed.

Lemma trailing_values_ignored_witness :
  (findBoundingBox (flatten [mkSeg8 0 0 0 1 3 0 0 1] ++ [5; 6; 7]) 1
   = findBoundingBox (flatten [mkSeg8 0 0 0 1 3 0 0 1]) 1) /\
  calculateSD (0, 0, 0) (flatten [mkSeg8 0 0 0 1 3 0 0 1] ++ [5; 6; 7]) 4
  = calculateSD (0, 0, 0) (flatten [mkSeg8 0 0 0 1 3 0 0 1]) 4.
Proof.
  destruct (trailing_values_ignored [mkSeg8 0 0 0 1 3 0 0 1] [5; 6; 7]
              1 4 (0, 0, 0) ((0, 0, 0), (1, 1, 1)) 1%nat)
    as (H1 & H2 & _).
  - cbn; lia.
  - split; [apply H1; discriminate | exact H2].
Defined.

(** ** More on the capsule distance *)

Lemma length3_nonneg (u : Vec3) : 0 <= length3 u.
Proof. apply sqrt_pos. Qed.

(** ** More on the smooth minimum *)

(** The hard minimum is one of the values. *)
Lemma fold_Rmin_in (l : list R) (x : R) : In (fold_left Rmin l x) (x :: l).
Proof.
  revert x. induction l as [|y l IH]; intro x; cbn [fold_left].
  - now left.
  - destruct (IH (Rmin x y)) as [E|Hin].
    + unfold Rmin in E at 1. destruct (Rle_dec x y).
      * left. exact E.
      * right. left. exact E.
    + right. right. exact Hin.
Qed.

(** ** More on the field *)

Lemma sdCapsule_cases (p a : Vec3) (r1 : R) (b : Vec3) (r2 : R) :
  sdCapsule p a r1 b r2 = Raise ZeroDivisionError \/
  exists v, sdCapsule p a r1 b r2 = Ok v.
Proof.
  unfold sdCapsule, py_div.
  destruct (Req_dec_T (dot (vsub b a) (vsub b a)) 0); cbn.
  - now left.
  - right. eexists; reflexivity.
Qed.

Lemma distances_degenerate (p : Vec3) (segs : list Seg8) :
  (exists s, In s segs /\ seg_a s = seg_b s) ->
  mapM (fun s => sdCapsule p (d0 s, d1 s, d2 s) (d3 s)
                           (d4 s, d5 s, d6 s) (d7 s)) segs
  = Raise ZeroDivisionError.
Proof.
  induction segs as [|s0 segs IH]; intros (s & Hin & Hdeg); [contradiction|].
  cbn [mapM].
  destruct (sdCapsule_cases p (d0 s0, d1 s0, d2 s0) (d3 s0)
              (d4 s0, d5 s0, d6 s0) (d7 s0)) as [E|[v E]];
    rewrite E; cbn [bind]; [reflexivity|].
  destruct Hin as [->|Hin].
  - unfold seg_a, seg_b in Hdeg. rewrite <- Hdeg in E.
    rewrite sdCapsule_degenerate in E. discriminate.
  - rewrite IH by (exists s; now split). reflexivity.
Qed.

(** ** More on the float range *)


Lemma for_frange_diverges {S : Type} (body : R -> S -> option (result S))
    (end_ step : R) :
  step <= 0 ->
  (forall v s, body v s = None \/ exists s', body v s = Some (Ok s')) ->
  forall fuel value s,
    value < end_ -> for_frange fuel value end_ step body s = None.
Proof.
  intros Hstep Hbody.
  induction fuel as [|fuel IH]; intros value s Hlt; [reflexivity|].
  cbn [for_frange]. destruct (Rlt_dec value end_); [|lra].
  destruct (Hbody value s) as [E|[s' E]]; rewrite E; [reflexivity|].
  apply IH. lra.
Qed.

(** X14: when the start is not below the end [frange] yields nothing, for
    every step; when it is below and the step is zero or negative the loop
    never ends. *)
Theorem frange_edge_cases (start end_ step : R) :
  (end_ <= start ->
     forall fuel, frange (S fuel) start end_ step = Some (Ok [])) /\
  (start < end_ -> step <= 0 ->
     forall fuel, frange fuel start end_ step = None).
Proof.
  split.
  - intros Hge fuel. unfold frange. cbn [for_frange].
    destruct (Rlt_dec start end_); [lra|reflexivity].
  - intros Hlt Hstep fuel. unfold frange.
    apply for_frange_diverges; try assumption.
    intros v s. right. eexists; reflexivity.
Qed.

Lemma frange_edge_cases_witness :
  (forall fuel, frange (S fuel) 3 3 1 = Some (Ok [])) /\
  (forall fuel, frange fuel 0 1 (-1) = None).
Proof.
  split.
  - apply (proj1 (frange_edge_cases 3 3 1)). lra.
  - apply (proj2 (frange_edge_cases 0 1 (-1))); lra.
Defined.

(** ** More on the sampler *)

Lemma for_frange_mono {S : Type} (body body' : R -> S -> option (result S))
    (end_ step : R) :
  (forall v s r, body v s = Some r -> body' v s = Some r) ->
  forall fuel fuel' value s r,
    (fuel <= fuel')%nat ->
    for_frange fuel value end_ step body s = Some r ->
    for_frange fuel' value end_ step body' s = Some r.
Proof.
  intro Hb. induction fuel as [|fuel IH]; intros fuel' value s r Hle H;
    [discriminate|].
  destruct fuel' as [|fuel']; [lia|].
  cbn [for_frange] in *. destruct (Rlt_dec value end_); [|assumption].
  destruct (body value s) as [[s'|e]|] eqn:E; try discriminate.
  - rewrite (Hb _ _ _ E). apply (IH fuel'); [lia|assumption].
  - rewrite (Hb _ _ _ E). assumption.
Qed.

Lemma sampleSD_fuel_mono (l : list R) (vs k : R) (box : BoundingBox)
    (fuel fuel' : nat) (r : result (list Vec3)) :
  (fuel <= fuel')%nat ->
  sampleSD fuel l vs k box = Some r -> sampleSD fuel' l vs k box = Some r.
Proof.
  intros Hle. destruct box as [[[x0 y0] z0] [[x1 y1] z1]]. unfold sampleSD.
  apply for_frange_mono; [|assumption].
  intros x pts rx. apply for_frange_mono; [|assumption].
  intros y pts' ry. apply for_frange_mono; [|assumption].
  intros z pts'' rz H. exact H.
Qed.

Lemma in_axis (start step : R) (n : nat) (v : R) :
  In v (axis start step n) <->
  exists i, (i < n)%nat /\ v = start + INR i * step.
Proof.
  unfold axis. rewrite in_map_iff. split.
  - intros (i & <- & Hi). apply in_seq in Hi. exists i. split; [lia|reflexivity].
  - intros (i & Hi & ->). exists i. split; [reflexivity|].
    apply in_seq. lia.
Qed.

Lemma in_grid (x0 y0 z0 step : R) (nx ny nz : nat) (x y z : R) :
  In (x, y, z) (grid (x0, y0, z0) step nx ny nz) <->
  In x (axis x0 step nx) /\ In y (axis y0 step ny) /\ In z (axis z0 step nz).
Proof.
  unfold grid. rewrite in_flat_map. split.
  - intros (x' & Hx & H). apply in_flat_map in H.
    destruct H as (y' & Hy & H). apply in_map_iff in H.
    destruct H as (z' & E & Hz). injection E as -> -> ->. now repeat split.
  - intros (Hx & Hy & Hz). exists x. split; [assumption|].
    apply in_flat_map. exists y. split; [assumption|].
    apply in_map_iff. exists z. now split.
Qed.

Lemma axis_in_range (start end_ step v : R) :
  0 < step -> In v (axis start step (steps start end_ step)) ->
  start <= v < end_.
Proof.
  intros Hs Hv. apply in_axis in Hv. destruct Hv as (i & Hi & ->).
  apply (steps_spec start end_ step i Hs) in Hi.
  pose proof (pos_INR i). split; [nra|assumption].
Qed.

(** X15: with proper segments, a positive voxel size and [k > 0], every
    point [sampleSD] returns lies in the box, the min corner included and
    the max corner excluded on every axis, and the field is strictly
    negative there. *)
Theorem sampleSD_points_in_box (segs : list Seg8) (vs k : R)
    (x0 y0 z0 x1 y1 z1 : R) (fuel : nat) (points : list Vec3) :
  segs <> [] -> (forall s, In s segs -> proper s) ->
  0 < vs -> 0 < k ->
  sampleSD fuel (flatten segs) vs k ((x0, y0, z0), (x1, y1, z1))
    = Some (Ok points) ->
  forall x y z, In (x, y, z) points ->
    x0 <= x < x1 /\ y0 <= y < y1 /\ z0 <= z < z1 /\
    exists v, calculateSD (x, y, z) (flatten segs) k = Ok v /\ v < 0.
Proof.
  intros Hne Hp Hvs Hk Hs x y z Hin.
  set (fuel' := Nat.max fuel
                  (S (Nat.max (steps x0 x1 vs)
                        (Nat.max (steps y0 y1 vs) (steps z0 z1 vs))))).
  pose proof (sampleSD_fuel_mono _ _ _ _ fuel fuel' _
                ltac:(unfold fuel'; lia) Hs) as Hs'.
  rewrite sampleSD_total_field in Hs';
    try assumption; try (unfold fuel'; lia);
    [|intro p; apply calculateSD_defined; try assumption; lra].
  injection Hs' as <-.
  apply filter_In in Hin. destruct Hin as [Hg Hi].
  apply in_grid in Hg. destruct Hg as (Hx & Hy & Hz).
  repeat split;
    try (eapply axis_in_range; [exact Hvs|eassumption]).
  unfold inside in Hi.
  destruct (calculateSD (x, y, z) (flatten segs) k) as [v|e];
    [|discriminate].
  exists v. split; [reflexivity|].
  destruct (Rlt_dec v 0); [assumption|discriminate].
Qed.

Lemma sampleSD_points_in_box_witness :
  exists fuel points,
    sampleSD fuel (flatten [mkSeg8 0 0 0 1 3 0 0 1]) (1 / 2) 4
      ((-1, -1, -1), (4, 1, 1)) = Some (Ok points) /\
    forall x y z, In (x, y, z) points ->
      -1 <= x < 4 /\ -1 <= y < 1 /\ -1 <= z < 1 /\
      exists v, calculateSD (x, y, z) (flatten [mkSeg8 0 0 0 1 3 0 0 1]) 4
                  = Ok v /\ v < 0.
Proof.
  assert (Hp : forall s, In s [mkSeg8 0 0 0 1 3 0 0 1] -> proper s).
  { intros s [<-|[]]. unfold proper, seg_a, seg_b; cbn.
    intro E; injection E; lra. }
  set (fuel := S (Nat.max (steps (-1) 4 (1 / 2))
                    (Nat.max (steps (-1) 1 (1 / 2)) (steps (-1) 1 (1 / 2))))).
  assert (Hs : sampleSD fuel (flatten [mkSeg8 0 0 0 1 3 0 0 1]) (1 / 2) 4
                 ((-1, -1, -1), (4, 1, 1))
               = Some (Ok (filter
                    (inside (flatten [mkSeg8 0 0 0 1 3 0 0 1]) 4)
                    (grid (-1, -1, -1) (1 / 2) (steps (-1) 4 (1 / 2))
                       (steps (-1) 1 (1 / 2)) (steps (-1) 1 (1 / 2)))))).
  { apply sampleSD_total_field; try (unfold fuel; lia); try lra.
    intro p. apply calculateSD_defined; [discriminate | exact Hp | lra]. }
  exists fuel. eexists. split; [exact Hs|].
  apply (sampleSD_points_in_box [mkSeg8 0 0 0 1 3 0 0 1] (1 / 2) 4
           (-1) (-1) (-1) 4 1 1 fuel);
    [discriminate | exact Hp | lra | lra | exact Hs].
Defined.

(** X17: when some segment has equal endpoints and the box has room on all
    three axes, [sampleSD] raises [ZeroDivisionError] at the first grid
    point, for every voxel size and every [k]. *)
Theorem sampleSD_degenerate_raises (segs : list Seg8) (vs k : R)
    (x0 y0 z0 x1 y1 z1 : R) (fuel : nat) :
  (exists s, In s segs /\ seg_a s = seg_b s) ->
  x0 < x1 -> y0 < y1 -> z0 < z1 ->
  sampleSD (S fuel) (flatten segs) vs k ((x0, y0, z0), (x1, y1, z1))
  = Some (Raise ZeroDivisionError).
Proof.
  intros Hdeg Hx Hy Hz. unfold sampleSD. cbn [for_frange].
  destruct (Rlt_dec x0 x1); [|lra].
  destruct (Rlt_dec y0 y1); [|lra].
  destruct (Rlt_dec z0 z1); [|lra].
  assert (E : calculateSD (x0, y0, z0) (flatten segs) k
              = Raise ZeroDivisionError).
  { unfold calculateSD. now rewrite group8_flatten, distances_degenerate. }
  now rewrite E.
Qed.

Lemma sampleSD_degenerate_raises_witness :
  sampleSD 1 (flatten [mkSeg8 0 0 0 1 3 0 0 1; mkSeg8 3 0 0 1 3 0 0 2])
    (1 / 2) 4 ((-1, -1, -1), (4, 1, 1))
  = Some (Raise ZeroDivisionError).
Proof.
  apply sampleSD_degenerate_raises; try lra.
  exists (mkSeg8 3 0 0 1 3 0 0 2). split; [cbn; auto | reflexivity].
Defined.

(** ** More on the traversal *)

(** A property every iteration keeps holds of the state the loop ends in. *)
Lemma walk_invariant (sc : Scene) (P : Walk -> Prop) :
  (forall w w', P w -> walk_step sc w = Some w' -> P w') ->
  forall fuel w w', P w -> walk fuel sc w = Some w' ->
    P w' /\ uncheckedN w' = [].
Proof.
  intro Hstep. induction fuel as [|fuel IH]; intros w w' HP H; [discriminate|].
  cbn [walk] in H. destruct (walk_step sc w) as [w1|] eqn:E.
  - apply (IH w1 w'); [now apply (Hstep w)|assumption].
  - injection H as <-. split; [assumption|].
    unfold walk_step in E.
    destruct (pop_last (uncheckedN w)) as [[S0 n]|] eqn:E'; [discriminate|].
    now apply pop_last_None.
Qed.

Lemma walk_step_parts (sc : Scene) (w w' : Walk) :
  walk_step sc w = Some w' ->
  exists S0 n,
    uncheckedN w = S0 ++ [n] /\
    checkedN w' = checkedN w ++ [n] /\
    uncheckedN w' =
      S0 ++ filter (fun c => negb (mem c (checkedN w ++ [n]))) (childN sc n) /\
    lineSegments w' = lineSegments w ++ segment_of sc n.
Proof.
  unfold walk_step.
  destruct (pop_last (uncheckedN w)) as [[S0 n]|] eqn:E; [|discriminate].
  intro H; injection H as <-. cbn.
  exists S0, n. split; [now apply pop_last_Some|].
  repeat split. unfold segment_of.
  destruct (parentN sc n); [reflexivity|now rewrite app_nil_r].
Qed.

Lemma findLineSegments_by_popped_core (sc : Scene) (root : node) (fuel : nat)
    (ls : list R) :
  findLineSegments fuel sc root = Some ls ->
  exists ns, popped fuel sc root = Some ns /\
             ls = flat_map (segment_of sc) ns.
Proof.
  unfold findLineSegments, popped. intro H.
  destruct (walk fuel sc (mkWalk [root] [] [])) as [w'|] eqn:E;
    [|discriminate].
  cbn in H. injection H as <-. exists (checkedN w'). split; [reflexivity|].
  apply (walk_invariant sc
           (fun w => lineSegments w = flat_map (segment_of sc) (checkedN w)))
    in E.
  - apply E.
  - intros w w1 HP Hstep.
    destruct (walk_step_parts sc w w1 Hstep) as (S0 & n & _ & HC & _ & HL).
    rewrite HL, HC, flat_map_app, HP. cbn [flat_map].
    now rewrite app_nil_r.
  - reflexivity.
Qed.

(** X19: the list [findLineSegments] returns is, in the order the loop
    takes the nodes, the segment of every node taken that has a parent:
    the parent's position and radius followed by the node's own. *)
Theorem findLineSegments_by_popped (sc : Scene) (root : node) (fuel : nat)
    (ls : list R) :
  findLineSegments fuel sc root = Some ls ->
  exists ns, popped fuel sc root = Some ns /\
             ls = flat_map (segment_of sc) ns.
Proof. exact (findLineSegments_by_popped_core sc root fuel ls). Qed.

Lemma findLineSegments_by_popped_witness :
  exists ns, popped 3 pair_scene 0%nat = Some ns /\
             [0; 0; 0; Rmax (Rmax 1 1) 1; 3; 0; 0; Rmax (Rmax 1 1) 1]
             = flat_map (segment_of pair_scene) ns.
Proof.
  apply (findLineSegments_by_popped pair_scene 0%nat 3). reflexivity.
Defined.

Lemma popped_iff_reachable_core (sc : Scene) (root : node) (fuel : nat)
    (ns : list node) :
  popped fuel sc root = Some ns ->
  forall n, In n ns <-> reachable sc root n.
Proof.
  unfold popped. intro H.
  destruct (walk fuel sc (mkWalk [root] [] [])) as [w'|] eqn:E;
    [|discriminate].
  cbn in H. injection H as <-.
  apply (walk_invariant sc (fun w =>
           (forall n, In n (uncheckedN w) \/ In n (checkedN w) ->
                      reachable sc root n) /\
           (forall n, In n (checkedN w) -> forall c, In c (childN sc n) ->
                      In c (checkedN w) \/ In c (uncheckedN w)) /\
           (In root (checkedN w) \/ In root (uncheckedN w)))) in E.
  - destruct E as [(Hsound & Hclosed & Hroot) Hend].
    rewrite Hend in *. intro n. split.
    + intro Hn. apply Hsound. now right.
    + intro Hr. induction Hr as [|n c Hr IH Hc].
      * destruct Hroot as [Hroot|[]]. exact Hroot.
      * destruct (Hclosed n IH c Hc) as [Hin|[]]. exact Hin.
  - intros w w1 (Hsound & Hclosed & Hroot) Hstep.
    destruct (walk_step_parts sc w w1 Hstep) as (S0 & m & HS & HC & HS' & _).
    assert (Hm : reachable sc root m).
    { apply Hsound. left. rewrite HS. apply in_or_app. right. now left. }
    rewrite HS', HC. split; [|split].
    + intros n [Hn|Hn].
      * apply in_app_or in Hn. destruct Hn as [Hn|Hn].
        -- apply Hsound. left. rewrite HS. apply in_or_app. now left.
        -- apply filter_In in Hn. destruct Hn as [Hn _].
           now apply (reach_child sc root m).
      * apply in_app_or in Hn. destruct Hn as [Hn|[<-|[]]].
        -- apply Hsound. now right.
        -- exact Hm.
    + intros n Hn c Hc.
      destruct (mem c (checkedN w ++ [m])) eqn:Ec.
      { left. now apply mem_In. }
      right. apply in_app_or in Hn. destruct Hn as [Hn|[<-|[]]].
      * destruct (Hclosed n Hn c Hc) as [H1|H1].
        -- exfalso. apply mem_false in Ec. apply Ec.
           apply in_or_app. now left.
        -- rewrite HS in H1. apply in_app_or in H1.
           destruct H1 as [H1|[<-|[]]].
           ++ apply in_or_app. now left.
           ++ exfalso. apply mem_false in Ec. apply Ec.
              apply in_or_app. right. now left.
      * apply in_or_app. right. apply filter_In.
        split; [assumption|]. now rewrite Ec.
    + destruct Hroot as [Hroot|Hroot].
      * left. apply in_or_app. now left.
      * rewrite HS in Hroot. apply in_app_or in Hroot.
        destruct Hroot as [Hroot|[<-|[]]].
        -- right. apply in_or_app. now left.
        -- left. apply in_or_app. right. now left.
  - cbn. split; [|split].
    + intros n [[<-|[]]|[]]. constructor.
    + intros n [].
    + right. now left.
Qed.

(** X20: when the loop ends, the nodes it has taken are exactly the nodes
    that can be reached from the root along [childN]. *)
Theorem popped_iff_reachable (sc : Scene) (root : node) (fuel : nat)
    (ns : list node) :
  popped fuel sc root = Some ns ->
  forall n, In n ns <-> reachable sc root n.
Proof. exact (popped_iff_reachable_core sc root fuel ns). Qed.

Lemma popped_iff_reachable_witness :
  reachable shared_child_scene 0%nat 2%nat /\
  ~ reachable shared_child_scene 0%nat 3%nat.
Proof.
  pose proof (popped_iff_reachable shared_child_scene 0%nat 5
                [0; 1; 2; 2]%nat eq_refl) as H.
  split.
  - apply H. cbn. auto.
  - intro Hr. apply H in Hr. cbn in Hr.
    destruct Hr as [E|[E|[E|[E|[]]]]]; discriminate.
Defined.

Lemma NoDup_move (S0 F C : list node) (m : node) :
  NoDup ((S0 ++ [m]) ++ C) -> NoDup F ->
  (forall c, In c F -> ~ In c ((S0 ++ [m]) ++ C)) ->
  NoDup ((S0 ++ F) ++ C ++ [m]).
Proof.
  intros HX HF Hdis.
  apply (Permutation_NoDup (l := F ++ (S0 ++ [m]) ++ C)).
  - rewrite <- !app_assoc.
    etransitivity; [apply Permutation_app_swap_app|].
    apply Permutation_app_head. apply Permutation_app_head.
    apply Permutation_app_comm.
  - now apply NoDup_app.
Qed.

(** X21: in a scene where no node is a child of two nodes and no
    [childN] list names a node twice, the loop takes no node twice: every
    node that can be reached gives at most one segment. *)
Theorem popped_NoDup_on_tree (sc : Scene) (root : node) (fuel : nat)
    (ns : list node) :
  (forall c p1 p2, In c (childN sc p1) -> In c (childN sc p2) -> p1 = p2) ->
  (forall n, NoDup (childN sc n)) ->
  popped fuel sc root = Some ns ->
  NoDup ns.
Proof.
  intros Huniq Hnd. unfold popped. intro H.
  destruct (walk fuel sc (mkWalk [root] [] [])) as [w'|] eqn:E;
    [|discriminate].
  cbn in H. injection H as <-.
  apply (walk_invariant sc (fun w =>
           NoDup (uncheckedN w ++ checkedN w) /\
           ((uncheckedN w = [root] /\ checkedN w = []) \/
            (forall x, In x (uncheckedN w) ->
               exists p, In p (checkedN w) /\ In x (childN sc p))))) in E.
  - destruct E as [[HN _] Hend]. rewrite Hend in HN. exact HN.
  - intros w w1 (HN & Hshape) Hstep.
    destruct (walk_step_parts sc w w1 Hstep) as (S0 & m & HS & HC & HS' & _).
    rewrite HS', HC. rewrite HS in HN.
    set (F := filter (fun c => negb (mem c (checkedN w ++ [m])))
                (childN sc m)).
    assert (HmC : ~ In m (checkedN w)).
    { intro Hin. rewrite <- app_assoc in HN.
      apply NoDup_app_remove_l in HN. cbn in HN.
      apply NoDup_cons_iff in HN. now destruct HN. }
    split.
    + apply NoDup_move; [assumption | now apply NoDup_filter |].
      intros c Hc Hin.
      apply filter_In in Hc. destruct Hc as [Hchild Hneg].
      apply negb_true_iff, mem_false in Hneg.
      apply in_app_or in Hin. destruct Hin as [Hin|Hin].
      * apply in_app_or in Hin. destruct Hin as [Hin|[<-|[]]].
        -- destruct Hshape as [[HSr _]|Hshape].
           ++ rewrite HS in HSr.
              destruct S0 as [|a S0]; [contradiction|].
              destruct S0; discriminate.
           ++ destruct (Hshape c) as (p & Hp & Hcp).
              { rewrite HS. apply in_or_app. now left. }
              assert (p = m) by now apply (Huniq c).
              subst p. contradiction.
        -- apply Hneg. apply in_or_app. right. now left.
      * apply Hneg. apply in_or_app. now left.
    + right. intros x Hx. apply in_app_or in Hx. destruct Hx as [Hx|Hx].
      * destruct Hshape as [[HSr _]|Hshape].
        -- rewrite HS in HSr.
           destruct S0 as [|a S0]; [contradiction|].
           destruct S0; discriminate.
        -- destruct (Hshape x) as (p & Hp & Hxp).
           { rewrite HS. apply in_or_app. now left. }
           exists p. split; [apply in_or_app; now left | assumption].
      * apply filter_In in Hx. destruct Hx as [Hx _].
        exists m. split; [apply in_or_app; right; now left | assumption].
  - cbn. split.
    + constructor; [intros []|constructor].
    + left. now split.
Qed.

Lemma popped_NoDup_on_tree_witness : NoDup [0; 1]%nat.
Proof.
  apply (popped_NoDup_on_tree pair_scene 0%nat 3 [0; 1]%nat).
  - intros c p1 p2 H1 H2.
    destruct p1 as [|p1]; [|destruct H1].
    destruct p2 as [|p2]; [reflexivity|destruct H2].
  - intros [|n]; cbn; repeat constructor. intros [].
  - reflexivity.
Defined.

(** X22: a selected node whose [childN] plug has no destination gives only
    its own segment: the one to its parent when it has a parent, and the
    empty list otherwise; in the second case [export] returns without
    writing or printing anything. *)
Theorem export_childless_node (str_float : R -> string) (sc : Scene)
    (root : node) (rest : list node) (w : World) (folder file : string)
    (vs k : R) (fuel : nat) :
  childN sc root = [] ->
  findLineSegments (S (S fuel)) sc root = Some (segment_of sc root) /\
  (parentN sc root = None ->
     export str_float (S (S fuel)) sc (root :: rest) w folder file vs k
     = Some (Ok tt, w)).
Proof.
  intro Hc.
  assert (E : findLineSegments (S (S fuel)) sc root
              = Some (segment_of sc root)).
  { unfold findLineSegments. cbn [walk].
    unfold walk_step at 1. cbn [uncheckedN pop_last rev app].
    rewrite Hc. cbn [filter app checkedN lineSegments].
    unfold walk_step. cbn [uncheckedN pop_last rev option_map lineSegments].
    unfold segment_of. now destruct (parentN sc root). }
  split; [exact E|].
  intro Hp.
  apply (export_short str_float (S (S fuel)) sc root rest w folder file vs k
           (segment_of sc root)); [exact E|].
  unfold segment_of. rewrite Hp. cbn; lia.
Qed.

Lemma export_childless_node_witness :
  findLineSegments 2 single_scene 0%nat = Some [] /\
  export (fun _ => "0"%string) 2 single_scene [0%nat] empty_world
    "dir" "cloud" (1 / 2) 4
  = Some (Ok tt, empty_world).
Proof.
  destruct (export_childless_node (fun _ => "0"%string) single_scene 0%nat
              [] empty_world "dir" "cloud" (1 / 2) 4 0 eq_refl) as [H1 H2].
  split; [exact H1|]. apply H2. reflexivity.
Defined.

(** X23: the box depends on the segments only through the child end of
    every segment and the parent end of the first one: two lists that agree
    on these give the same result, whatever the parent ends of the later
    segments are. *)
Theorem findBoundingBox_ignores_later_parents (s : Seg8)
    (segs segs' : list Seg8) (vs : R) :
  map child_end segs = map child_end segs' ->
  findBoundingBox (flatten (s :: segs)) vs
  = findBoundingBox (flatten (s :: segs')) vs.
Proof.
  intro H. unfold findBoundingBox, child_rows.
  rewrite !group8_flatten, !first_row_flatten. cbn [map].
  assert (E : map (fun d => row_of (d4 d) (d5 d) (d6 d) (d7 d)) segs
              = map (fun d => row_of (d4 d) (d5 d) (d6 d) (d7 d)) segs').
  { transitivity (map (fun c : R * R * R * R =>
                         let '(x, y, z, r) := c in row_of x y z r)
                      (map child_end segs)).
    - rewrite map_map. reflexivity.
    - rewrite H, map_map. reflexivity. }
  now rewrite E.
Qed.

Lemma findBoundingBox_ignores_later_parents_witness :
  findBoundingBox
    (flatten [mkSeg8 0 0 0 1 3 0 0 1; mkSeg8 3 0 0 1 3 4 0 1]) 1
  = findBoundingBox
      (flatten [mkSeg8 0 0 0 1 3 0 0 1; mkSeg8 90 90 90 9 3 4 0 1]) 1.
Proof.
  apply findBoundingBox_ignores_later_parents. reflexivity.
Defined.

(** * Properties that do not depend on exact arithmetic *)

(** ** The order of the corners *)



(** ** Ranges by repeated addition *)

Lemma iter_add_shift (start step : R) (i : nat) :
  iter_add (start + step) step i = iter_add start step (S i).
Proof.
  induction i as [|i IH]; [reflexivity|].
  cbn [iter_add] in *. now rewrite IH.
Qed.

Lemma ramp_S (start step : R) (n : nat) :
  ramp start step (S n) = start :: ramp (start + step) step n.
Proof.
  unfold ramp. cbn [seq map iter_add]. f_equal.
  rewrite <- seq_shift, map_map. apply map_ext.
  intro i. symmetry. apply iter_add_shift.
Qed.

Lemma range_count_step (start end_ step : R) (n : nat) :
  range_count start end_ step (S n) ->
  start < end_ /\ range_count (start + step) end_ step n.
Proof.
  intros [Hlt Hend]. split.
  - apply (Hlt 0%nat). lia.
  - split.
    + intros i Hi. rewrite iter_add_shift. apply Hlt. lia.
    + now rewrite iter_add_shift.
Qed.

(** A loop over a range that ends after [n] values, with a body that returns
    on each of them, is a fold over these values. *)
Lemma for_frange_ramp {S : Type} (g : R -> S -> S)
    (body : R -> S -> option (result S)) (end_ step : R) :
  forall (n fuel : nat) (start : R) (s : S),
    (n < fuel)%nat ->
    range_count start end_ step n ->
    (forall v s', In v (ramp start step n) -> body v s' = Some (Ok (g v s'))) ->
    for_frange fuel start end_ step body s
    = Some (Ok (fold_left (fun s v => g v s) (ramp start step n) s)).
Proof.
  induction n as [|n IH]; intros fuel start s Hfuel Hn Hbody.
  - destruct fuel as [|fuel]; [lia|]. cbn [for_frange].
    destruct Hn as [_ Hend]. cbn [iter_add] in Hend.
    destruct (Rlt_dec start end_); [contradiction|reflexivity].
  - destruct fuel as [|fuel]; [lia|]. cbn [for_frange].
    destruct (range_count_step start end_ step n Hn) as [Hlt Hn'].
    destruct (Rlt_dec start end_); [|contradiction].
    rewrite ramp_S in *.
    rewrite Hbody by now left. cbn [fold_left].
    apply IH; [lia | assumption |].
    intros v s' Hv. apply Hbody. now right.
Qed.

Lemma in_visited (x0 y0 z0 step : R) (nx ny nz : nat) (x y z : R) :
  In (x, y, z) (visited (x0, y0, z0) step nx ny nz) <->
  In x (ramp x0 step nx) /\ In y (ramp y0 step ny) /\ In z (ramp z0 step nz).
Proof.
  unfold visited. rewrite in_flat_map. split.
  - intros (x' & Hx & H). apply in_flat_map in H.
    destruct H as (y' & Hy & H). apply in_map_iff in H.
    destruct H as (z' & E & Hz). injection E as -> -> ->. now repeat split.
  - intros (Hx & Hy & Hz). exists x. split; [assumption|].
    apply in_flat_map. exists y. split; [assumption|].
    apply in_map_iff. exists z. now split.
Qed.

(** When the three ranges end and the field returns at every point they
    visit, [sampleSD] returns the visited points with a negative field. *)
Lemma sampleSD_visited_core (l : list R) (vs k : R)
    (x0 y0 z0 x1 y1 z1 : R) (nx ny nz : nat) :
  range_count x0 x1 vs nx ->
  range_count y0 y1 vs ny ->
  range_count z0 z1 vs nz ->
  (forall p, In p (visited (x0, y0, z0) vs nx ny nz) ->
             exists v, calculateSD p l k = Ok v) ->
  forall fuel, (nx < fuel)%nat -> (ny < fuel)%nat -> (nz < fuel)%nat ->
    sampleSD fuel l vs k ((x0, y0, z0), (x1, y1, z1))
    = Some (Ok (filter (inside l k) (visited (x0, y0, z0) vs nx ny nz))).
Proof.
  intros Hx Hy Hz Hdef fuel Hfx Hfy Hfz.
  unfold sampleSD.
  set (zs := ramp z0 vs nz).
  set (ys := ramp y0 vs ny).
  set (xs := ramp x0 vs nx).
  set (gz := fun (x y z : R) (points : list Vec3) =>
               if inside l k (x, y, z) then points ++ [(x, y, z)] else points).
  set (gy := fun (x y : R) (points : list Vec3) =>
               points ++ filter (inside l k) (map (fun z => (x, y, z)) zs)).
  set (gx := fun (x : R) (points : list Vec3) =>
               points ++ flat_map (fun y =>
                 filter (inside l k) (map (fun z => (x, y, z)) zs)) ys).
  assert (HZ : forall x y points, In x xs -> In y ys ->
             for_frange fuel z0 z1 vs (fun z points =>
               match calculateSD (x, y, z) l k with
               | Ok value =>
                   Some (Ok (if Rlt_dec value 0
                             then points ++ [(x, y, z)] else points))
               | Raise e => Some (Raise e)
               end) points
             = Some (Ok (gy x y points))).
  { intros x y points Hxin Hyin.
    rewrite (for_frange_ramp (gz x y)) with (n := nz); try assumption.
    - unfold gy, gz, zs. do 2 f_equal.
      apply (fold_keep (inside l k) (fun z => (x, y, z))).
    - intros z pts Hzin. apply sample_body, Hdef.
      apply in_visited. now repeat split. }
  assert (HY : forall x points, In x xs ->
             for_frange fuel y0 y1 vs (fun y points =>
               for_frange fuel z0 z1 vs (fun z points =>
                 match calculateSD (x, y, z) l k with
                 | Ok value =>
                     Some (Ok (if Rlt_dec value 0
                               then points ++ [(x, y, z)] else points))
                 | Raise e => Some (Raise e)
                 end) points) points
             = Some (Ok (gx x points))).
  { intros x points Hxin.
    rewrite (for_frange_ramp (gy x)) with (n := ny); try assumption.
    - unfold gx, gy. fold ys. do 2 f_equal.
      apply (fold_append (fun y =>
               filter (inside l k) (map (fun z => (x, y, z)) zs))).
    - intros y pts Hyin. now apply HZ. }
  rewrite (for_frange_ramp gx) with (n := nx); try assumption.
  do 2 f_equal. unfold gx. fold xs.
  rewrite (fold_append (fun x => flat_map (fun y =>
             filter (inside l k) (map (fun z => (x, y, z)) zs)) ys)).
  cbn [app]. unfold visited. fold zs ys xs.
  rewrite filter_flat_map. apply flat_map_ext. intro x.
  now rewrite filter_flat_map.
Qed.


Lemma range_count_0_1_half : range_count 0 1 (1 / 2) 2.
Proof.
  split.
  - intros i Hi. destruct i as [|[|i]]; cbn; try lra. lia.
  - cbn. lra.
Qed.







Lemma for_frange_zero_step {S : Type} (body : R -> S -> option (result S))
    (end_ value : R) :
  value < end_ ->
  (forall s, body value s = None \/ body value s = Some (Ok s)) ->
  forall fuel s, for_frange fuel value end_ 0 body s = None.
Proof.
  intros Hlt Hbody. induction fuel as [|fuel IH]; intro s; [reflexivity|].
  cbn [for_frange]. destruct (Rlt_dec value end_); [|lra].
  destruct (Hbody s) as [E|E]; rewrite E; [reflexivity|].
  rewrite Rplus_0_r. apply IH.
Qed.

(** X18: with a voxel size of zero, a box with room on all three axes and
    a field that returns a value that is not negative at the min corner,
    [sampleSD] never returns: the innermost range stays at the min corner. *)
Theorem sampleSD_zero_step_never_returns (l : list R) (k : R)
    (x0 y0 z0 x1 y1 z1 v : R) :
  x0 < x1 -> y0 < y1 -> z0 < z1 ->
  calculateSD (x0, y0, z0) l k = Ok v -> ~ v < 0 ->
  forall fuel,
    sampleSD fuel l 0 k ((x0, y0, z0), (x1, y1, z1)) = None.
Proof.
  intros Hx Hy Hz Hv Hpos fuel. unfold sampleSD.
  apply for_frange_zero_step; [assumption|]. intro pts. left.
  apply for_frange_zero_step; [assumption|]. intro pts'. left.
  apply for_frange_zero_step; [assumption|]. intro pts''. right.
  rewrite Hv. destruct (Rlt_dec v 0); [contradiction|reflexivity].
Qed.

Lemma calculateSD_behind_a (p : Vec3) (s : Seg8) (k : R) :
  proper s -> 0 < k ->
  dot (vsub p (seg_a s)) (vsub (seg_b s) (seg_a s)) <= 0 ->
  calculateSD p (flatten [s]) k = Ok (length3 (vsub p (seg_a s)) - d3 s).
Proof.
  intros Hp Hk Hdot. rewrite calculateSD_single by assumption.
  unfold seg_dist. now rewrite capsule_dist_behind_a.
Qed.

Lemma sampleSD_zero_step_never_returns_witness :
  sampleSD 1000 (flatten [mkSeg8 0 0 0 1 3 0 0 1]) 0 4
    ((- (3 / 2), 0, 0), (4, 1, 1)) = None.
Proof.
  apply (sampleSD_zero_step_never_returns
           (flatten [mkSeg8 0 0 0 1 3 0 0 1]) 4
           (- (3 / 2)) 0 0 4 1 1
           (length3 (vsub (- (3 / 2), 0, 0) (seg_a (mkSeg8 0 0 0 1 3 0 0 1)))
            - d3 (mkSeg8 0 0 0 1 3 0 0 1))); try lra.
  - apply calculateSD_behind_a.
    + unfold proper, seg_a, seg_b; cbn. intro E; injection E; lra.
    + lra.
    + unfold seg_a, seg_b; cbn. lra.
  - pose proof (length3_nonneg
                  (vsub (- (3 / 2), 0, 0) (seg_a (mkSeg8 0 0 0 1 3 0 0 1)))).
    unfold seg_a; cbn [d0 d1 d2 d3 vsub].
    replace (- (3 / 2) - 0, 0 - 0, 0 - 0) with (- (3 / 2), 0, 0)
      by (apply f_equal2; [apply f_equal2|]; ring).
    unfold length3; cbn.
    replace (- (3 / 2) * - (3 / 2) + 0 * 0 + 0 * 0)
      with ((3 / 2) * (3 / 2)) by ring.
    rewrite sqrt_square; lra.
Defined.

(** ** Outcomes of the field that rounding cannot change *)

(** X10: the errors of [calculateSD]: a segment with equal endpoints
    anywhere in the list makes it raise [ZeroDivisionError]; fewer than 8
    values raise [ValueError]; and with at least 8 values and [k = 0] it
    raises [ZeroDivisionError], whatever the segments are. *)
Theorem calculateSD_errors (p : Vec3) (l : list R) (k : R) :
  ((exists s, In s (group8 l) /\ seg_a s = seg_b s) ->
     calculateSD p l k = Raise ZeroDivisionError) /\
  ((List.length l < 8)%nat -> calculateSD p l k = Raise ValueError) /\
  ((8 <= List.length l)%nat -> k = 0 ->
     calculateSD p l k = Raise ZeroDivisionError).
Proof.
  split; [|split].
  - intro Hdeg. unfold calculateSD. now rewrite distances_degenerate.
  - intro Hlen. unfold calculateSD. now rewrite group8_short.
  - intros Hlen ->. unfold calculateSD.
    pose proof (group8_nonempty l Hlen) as Hne.
    destruct (mapM _ (group8 l)) as [ds|e] eqn:E; cbn [bind].
    + destruct (group8 l) as [|s segs]; [congruence|].
      cbn [mapM] in E.
      destruct (sdCapsule p (d0 s, d1 s, d2 s) (d3 s)
                  (d4 s, d5 s, d6 s) (d7 s)) as [d|e]; [|discriminate].
      cbn [bind] in E.
      destruct (mapM _ segs) as [ds'|e]; [|discriminate].
      cbn [bind] in E. injection E as <-.
      unfold smin. cbn [py_min bind].
      rewrite py_log_pos by (apply sum_exp_pos; discriminate).
      cbn [bind]. now rewrite py_div_zero.
    + clear Hne Hlen. revert e E.
      induction (group8 l) as [|s segs IH]; intros e E; [discriminate|].
      cbn [mapM] in E.
      destruct (sdCapsule_cases p (d0 s, d1 s, d2 s) (d3 s)
                  (d4 s, d5 s, d6 s) (d7 s)) as [E'|[v E']];
        rewrite E' in E; cbn [bind] in E.
      * congruence.
      * destruct (mapM _ segs) as [ds'|e'] eqn:E''; cbn [bind] in E;
          [discriminate|].
        injection E as <-. now rewrite (IH e' eq_refl).
Qed.

Lemma calculateSD_errors_witness :
  calculateSD (0, 0, 0) [0; 0; 0; 1; 3; 0; 0; 1; 2; 2; 2; 1; 2; 2; 2; 1] 4
    = Raise ZeroDivisionError /\
  calculateSD (0, 0, 0) [0; 0; 0; 1] 4 = Raise ValueError /\
  calculateSD (0, 0, 0) [0; 0; 0; 1; 3; 0; 0; 1] 0
    = Raise ZeroDivisionError.
Proof.
  split; [|split].
  - apply (proj1 (calculateSD_errors (0, 0, 0)
                    [0; 0; 0; 1; 3; 0; 0; 1; 2; 2; 2; 1; 2; 2; 2; 1] 4)).
    exists (mkSeg8 2 2 2 1 2 2 2 1). split; [cbn; auto | reflexivity].
  - apply (proj1 (proj2 (calculateSD_errors (0, 0, 0) [0; 0; 0; 1] 4))).
    cbn; lia.
  - apply (proj2 (proj2 (calculateSD_errors (0, 0, 0)
                           [0; 0; 0; 1; 3; 0; 0; 1] 0)));
      [cbn; lia | reflexivity].
Defined.

Lemma mapM_Ok_in {A B : Type} (f : A -> result B) (l : list A) (bs : list B) :
  mapM f l = Ok bs ->
  forall b, In b bs -> exists a, In a l /\ f a = Ok b.
Proof.
  revert bs. induction l as [|a l IH]; intros bs E b Hb; cbn [mapM] in E.
  - injection E as <-. contradiction.
  - destruct (f a) as [b0|e] eqn:Ea; [|discriminate]. cbn [bind] in E.
    destruct (mapM f l) as [bs'|e]; [|discriminate]. cbn [bind] in E.
    injection E as <-. destruct Hb as [<-|Hb].
    + exists a. split; [now left|assumption].
    + destruct (IH bs' eq_refl b Hb) as (a' & Hin & Ha').
      exists a'. split; [now right|assumption].
Qed.

Lemma smin_negative_min (k : R) (values : list R) (v : R) :
  smin k values = Ok v -> v < 0 -> exists m, In m values /\ m < 0.
Proof.
  intros E Hv. destruct values as [|x xs]; [discriminate|].
  unfold smin in E. cbn [py_min bind] in E.
  destruct (py_log _) as [lg|e]; [|discriminate]. cbn [bind] in E.
  destruct (py_div lg k) as [r|e]; [|discriminate]. cbn [bind] in E.
  injection E as <-. unfold copysign in Hv.
  destruct (Rlt_dec (fold_left Rmin xs x) 0) as [Hm|Hm].
  - exists (fold_left Rmin xs x). split; [apply fold_Rmin_in|assumption].
  - pose proof (Rabs_pos r). lra.
Qed.

Lemma calculateSD_negative_core (p : Vec3) (l : list R) (k v : R) :
  calculateSD p l k = Ok v -> v < 0 ->
  exists s d, In s (group8 l) /\
    sdCapsule p (seg_a s) (d3 s) (seg_b s) (d7 s) = Ok d /\ d < 0.
Proof.
  intros E Hv. unfold calculateSD in E.
  destruct (mapM _ (group8 l)) as [ds|e] eqn:Eds; [|discriminate].
  cbn [bind] in E.
  destruct (smin_negative_min k ds v E Hv) as (m & Hin & Hm).
  destruct (mapM_Ok_in _ _ _ Eds m Hin) as (s & Hs & Hd).
  exists s, m. repeat split; assumption.
Qed.

(** X11: when [calculateSD] returns a strictly negative value at a point,
    the distance [sdCapsule] returns for one of the segments is strictly
    negative there: the smooth union adds no point that lies in no
    capsule. *)
Theorem calculateSD_negative_in_a_capsule (p : Vec3) (l : list R) (k v : R) :
  calculateSD p l k = Ok v -> v < 0 ->
  exists s d, In s (group8 l) /\
    sdCapsule p (seg_a s) (d3 s) (seg_b s) (d7 s) = Ok d /\ d < 0.
Proof. exact (calculateSD_negative_core p l k v). Qed.

Lemma calculateSD_negative_in_a_capsule_witness :
  exists s d, In s (group8 (flatten [mkSeg8 0 0 0 1 3 0 0 1])) /\
    sdCapsule (0, 0, 0) (seg_a s) (d3 s) (seg_b s) (d7 s) = Ok d /\ d < 0.
Proof.
  apply (calculateSD_negative_in_a_capsule (0, 0, 0)
           (flatten [mkSeg8 0 0 0 1 3 0 0 1]) 4
           (seg_dist (0, 0, 0) (mkSeg8 0 0 0 1 3 0 0 1))).
  - apply calculateSD_single; [|lra].
    unfold proper, seg_a, seg_b; cbn. intro E; injection E; lra.
  - unfold seg_dist, seg_a; cbn [d0 d1 d2 d3].
    rewrite capsule_dist_at_a. lra.
Defined.

Lemma for_frange_preserves {S : Type} (P : S -> Prop)
    (body : R -> S -> option (result S)) (end_ step : R) :
  (forall v s s', P s -> body v s = Some (Ok s') -> P s') ->
  forall fuel value s s',
    P s -> for_frange fuel value end_ step body s = Some (Ok s') -> P s'.
Proof.
  intro Hbody. induction fuel as [|fuel IH]; intros value s s' HP E;
    [discriminate|].
  cbn [for_frange] in E. destruct (Rlt_dec value end_).
  - destruct (body value s) as [[s1|e]|] eqn:Eb; try discriminate.
    apply (IH (value + step) s1); [|assumption].
    now apply (Hbody value s).
  - now injection E as <-.
Qed.

(** X12: every point [sampleSD] returns lies strictly inside one of the
    capsules: [sdCapsule] returns a strictly negative distance there for
    one of the segments. *)
Theorem sampleSD_points_in_a_capsule (fuel : nat) (l : list R) (vs k : R)
    (box : BoundingBox) (points : list Vec3) :
  sampleSD fuel l vs k box = Some (Ok points) ->
  Forall (fun p => exists s d, In s (group8 l) /\
            sdCapsule p (seg_a s) (d3 s) (seg_b s) (d7 s) = Ok d /\ d < 0)
         points.
Proof.
  destruct box as [[[x0 y0] z0] [[x1 y1] z1]]. unfold sampleSD.
  apply for_frange_preserves; [|constructor].
  intros x pts pts' HP. apply for_frange_preserves; [|assumption].
  clear pts pts' HP. intros y pts pts' HP.
  apply for_frange_preserves; [|assumption].
  clear pts pts' HP. intros z pts pts' HP E.
  destruct (calculateSD (x, y, z) l k) as [v|e] eqn:Ev; [|discriminate].
  injection E as <-. destruct (Rlt_dec v 0) as [Hv|Hv]; [|assumption].
  apply Forall_app. split; [assumption|]. constructor; [|constructor].
  exact (calculateSD_negative_core (x, y, z) l k v Ev Hv).
Qed.

Lemma sampleSD_points_in_a_capsule_witness :
  Forall (fun p => exists s d,
            In s (group8 (flatten [mkSeg8 0 0 0 1 3 0 0 1])) /\
            sdCapsule p (seg_a s) (d3 s) (seg_b s) (d7 s) = Ok d /\ d < 0)
         (filter (inside (flatten [mkSeg8 0 0 0 1 3 0 0 1]) 4)
            (visited (0, 0, 0) (1 / 2) 2 2 2)).
Proof.
  apply (sampleSD_points_in_a_capsule 3
           (flatten [mkSeg8 0 0 0 1 3 0 0 1]) (1 / 2) 4
           ((0, 0, 0), (1, 1, 1))).
  apply sampleSD_visited_core;
    try apply range_count_0_1_half; try lia.
  intros p _. apply calculateSD_defined; [discriminate | | lra].
  intros s [<-|[]]. unfold proper, seg_a, seg_b; cbn.
  intro E; injection E; lra.
Defined.

(** * The code evaluated on binary64 floats *)

Module Binary64Facts.
Import Floats.
Local Open Scope float_scope.


(** The values of [frange] carry the rounding of every addition before
    them: from -1 to 1 by 0.1 the range yields 21 values, not 20, and the
    last one is 0.9999999999999998. *)
Lemma frange_accumulates_rounding :
  exists values,
    Binary64.frange 30 (-1) 1 0.1 = Some values /\
    List.length values = 21%nat /\
    last values 0 = 0.9999999999999998.
Proof. eexists. split; [vm_compute; reflexivity|]. split; reflexivity. Qed.

(** C8: at the centre of the first sphere of the segment from (0, 0, 0) to
    (30, 0, 0) with both radii 20 and [k = 50] the field is not [<= 0]:
    the distance there is -20 and [math.exp(1000.0)] raises
    [OverflowError]; and for a sphere of radius 1 given as the segment
    with both ends at its centre, the field at distance 1.5 raises
    [ZeroDivisionError].  Both hold whatever the values of the platform's
    [exp] and [log] are. *)
Theorem calculateSD_raises_at_sphere_centre
    (libm_exp libm_log : float -> float) :
  Binary64.calculateSD libm_exp libm_log (0, 0, 0)
    [0; 0; 0; 20; 30; 0; 0; 20] 50 = Raise OverflowError
  /\
  Binary64.calculateSD libm_exp libm_log (1.5, 0, 0)
    [0; 0; 0; 1; 0; 0; 0; 1] 4 = Raise ZeroDivisionError.
Proof. split; vm_compute; reflexivity. Qed.

(** C9: [smin(50.0, [-15.0])] does not return -15.0: [math.exp(750.0)]
    raises [OverflowError], whatever the values of the platform's [exp]
    and [log] are. *)
Theorem smin_single_overflows (libm_exp libm_log : float -> float) :
  Binary64.smin libm_exp libm_log 50 [-15] = Raise OverflowError.
Proof. vm_compute. reflexivity. Qed.

End Binary64Facts.
